(** * bookmarks-md: the bookmark tree builder of [src/extension.ts]

    [extractBookmarks] hands two callbacks to the markdown library and lets
    it walk the document.  The callbacks share three pieces of mutable
    state: the objects they allocate ([DirectoryItem], [BookmarkItem]), the
    result array [bookmarks] and the array [directoryStack].  A directory
    that sits on the stack is the very object that hangs in the tree, so
    the embedding keeps an explicit object store and arrays of references
    into it. *)

From Equations Require Import Equations.
From stdpp Require Import base list strings.
From Stdlib Require Import ZArith Lia Ascii Sorted.

Local Open Scope Z_scope.
Local Open Scope nat_scope.

(** ** Objects and the store *)

(** An object reference is an index into the store. *)
Abbreviation ref := nat (only parsing).

(** The two concrete subclasses of [BookmarkBase] that the builder
    allocates.  [children] is the array of references held by a
    [DirectoryItem]; [level] is the heading depth passed by the markdown
    library. *)
Inductive BookmarkBase : Type :=
| DirectoryItem (title : string) (level : Z) (children : list ref)
| BookmarkItem (title : string) (link : string).

Abbreviation Heap := (list BookmarkBase) (only parsing).

(** Failure of a property access on something that is not there. *)
Inductive Exc : Type := TypeError.

Abbreviation result A := (Exc + A)%type (only parsing).

Definition throw {A : Type} (e : Exc) : result A := inl e.

Definition bind {A B : Type} (m : result A) (k : A -> result B) : result B :=
  match m with
  | inl e => inl e
  | inr a => k a
  end.

Notation "x <-! m ; k" := (bind m (fun x => k))
  (at level 100, m at next level, right associativity).

(** ** The state captured by the two renderer callbacks *)

Record Closure : Type := mkClosure {
  heap : Heap;
  bookmarks : list ref;
  directoryStack : list ref }.

(** [directoryStack[directoryStack.length - 1]]; nothing there exactly when
    the stack is empty. *)
Definition stack_top (stack : list ref) : option ref :=
  stack !! (length stack - 1).

(** [directoryStack.pop()] *)
Definition stack_pop (st : Closure) : Closure :=
  mkClosure (heap st) (bookmarks st) (removelast (directoryStack st)).

(** [d.level] for a directory reference [d]. *)
Definition level_of (h : Heap) (d : ref) : result Z :=
  match h !! d with
  | Some (DirectoryItem _ lv _) => inr lv
  | _ => throw TypeError
  end.

(** [d.children.push(c)]: the object at [d] is updated in place, so every
    array that holds [d] sees the new child.  A reference to no object, or
    to an object without [children], fails. *)
Definition children_push (h : Heap) (d c : ref) : result Heap :=
  match h !! d with
  | Some (DirectoryItem t lv cs) => inr (<[d := DirectoryItem t lv (cs ++ [c])]> h)
  | _ => throw TypeError
  end.

(** The guard of the [while] in [renderer.heading]:
    [directoryStack.length > 0 && level <= top.level]. *)
Definition pop_guard (level : Z) (st : Closure) : result bool :=
  if 0 <? length (directoryStack st) then
    match stack_top (directoryStack st) with
    | Some d => lv <-! level_of (heap st) d; inr (level <=? lv)%Z
    | None => throw TypeError
    end
  else inr false.

Lemma pop_guard_nonempty level st :
  pop_guard level st = inr true -> 0 < length (directoryStack st).
Proof.
  unfold pop_guard. destruct (0 <? length (directoryStack st)) eqn:E.
  - intros _. by apply Nat.ltb_lt.
  - discriminate.
Qed.

Lemma stack_pop_length st :
  0 < length (directoryStack st) ->
  length (directoryStack (stack_pop st)) < length (directoryStack st).
Proof.
  unfold stack_pop; simpl. destruct (directoryStack st) as [|x l] using rev_ind.
  - simpl; lia.
  - intros _. rewrite removelast_last, length_app. simpl; lia.
Qed.

(** A test together with the evidence of its outcome, for the measure. *)
Definition inspect {A : Type} (a : A) : {b : A | a = b} := exist _ a eq_refl.

(** The [while] loop itself.  Each turn removes one entry of the stack, so
    the length of the stack is the measure. *)
Equations? pop_while (level : Z) (st : Closure) : result Closure
  by wf (length (directoryStack st)) lt :=
  pop_while level st with inspect (pop_guard level st) => {
    | exist _ (inl e) _ := inl e;
    | exist _ (inr true) Hg := pop_while level (stack_pop st);
    | exist _ (inr false) _ := inr st }.
Proof.
  apply stack_pop_length. by apply pop_guard_nonempty with level.
Qed.

(** [renderer.heading = (text, level) => { ... }] *)
Definition heading (text : string) (level : Z) (st : Closure) : result Closure :=
  st1 <-! pop_while level st;
  let newDirectory := length (heap st1) in
  let h := heap st1 ++ [DirectoryItem text level []] in
  st2 <-!
    (if 0 <? length (directoryStack st1) then
       match stack_top (directoryStack st1) with
       | Some parentDir =>
           h' <-! children_push h parentDir newDirectory;
           inr (mkClosure h' (bookmarks st1) (directoryStack st1))
       | None => throw TypeError
       end
     else inr (mkClosure h (bookmarks st1 ++ [newDirectory]) (directoryStack st1)));
  inr (mkClosure (heap st2) (bookmarks st2) (directoryStack st2 ++ [newDirectory])).

(** [renderer.link = (href, title, text) => { ... }] *)
Definition link (href : string) (title : option string) (text : string)
    (st : Closure) : result Closure :=
  let linkItem := length (heap st) in
  let h := heap st ++ [BookmarkItem text href] in
  if 0 <? length (directoryStack st) then
    match stack_top (directoryStack st) with
    | Some currentDir =>
        h' <-! children_push h currentDir linkItem;
        inr (mkClosure h' (bookmarks st) (directoryStack st))
    | None => throw TypeError
    end
  else inr (mkClosure h (bookmarks st ++ [linkItem]) (directoryStack st)).

(** ** The markdown library *)

(** What [marked(markdownContent, { renderer })] does to the state is the
    sequence of calls it makes to the two overridden renderer methods; the
    strings they return are discarded. *)
Inductive RendererCall : Type :=
| CallHeading (text : string) (level : Z)
| CallLink (href : string) (title : option string) (text : string).

Definition dispatch (c : RendererCall) (st : Closure) : result Closure :=
  match c with
  | CallHeading text level => heading text level st
  | CallLink href title text => link href title text st
  end.

Fixpoint run_calls (cs : list RendererCall) (st : Closure) : result Closure :=
  match cs with
  | [] => inr st
  | c :: cs' => st' <-! dispatch c st; run_calls cs' st'
  end.

(** [extractBookmarks(markdownContent)], run in a store [h0] that holds
    whatever was allocated before the call.  The result is the array
    [bookmarks] together with the store its references point into. *)
Section Builder.

Variable marked : string -> list RendererCall.

Definition extractBookmarks (markdownContent : string) (h0 : Heap)
    : result (list ref * Heap) :=
  st <-! run_calls (marked markdownContent) (mkClosure h0 [] []);
  inr (bookmarks st, heap st).

End Builder.

(** The states the callbacks can find themselves in. *)
Definition reachable (st : Closure) : Prop :=
  exists h0 calls, run_calls calls (mkClosure h0 [] []) = inr st.

(** ** The tree behind an array of references *)

(** What a reader of the returned array sees when following references:
    a directory with its level and children, or a link with its target. *)
#[local] Unset Elimination Schemes.
Inductive Node : Type :=
| Directory (title : string) (level : Z) (children : list Node)
| Link (title : string) (target : string).
#[local] Set Elimination Schemes.

Fixpoint reify (fuel : nat) (h : Heap) (r : ref) : option Node :=
  match fuel with
  | 0 => None
  | S fuel' =>
      match h !! r with
      | Some (DirectoryItem t lv cs) =>
          ns ← mapM (reify fuel' h) cs; Some (Directory t lv ns)
      | Some (BookmarkItem t l) => Some (Link t l)
      | None => None
      end
  end.

(** Deep view of an array of references; no path without a cycle is longer
    than the store. *)
Definition forest (h : Heap) (roots : list ref) : option (list Node) :=
  mapM (reify (length h) h) roots.

(** [within m n]: node [m] occurs in the tree [n], at any depth. *)
Inductive within (m : Node) : Node -> Prop :=
| within_here : within m m
| within_child t lv cs c :
    c ∈ cs -> within m c -> within m (Directory t lv cs).

(** Every directory below a directory has a strictly greater level. *)
Definition deeper_than (lv : Z) (n : Node) : bool :=
  match n with
  | Directory _ lv' _ => (lv <? lv')%Z
  | Link _ _ => true
  end.

Fixpoint level_monotonic (n : Node) : bool :=
  match n with
  | Directory _ lv ns =>
      forallb (fun c => deeper_than lv c && level_monotonic c) ns
  | Link _ _ => true
  end.

(** ** Abstract view of a state

    At any moment the tree under construction splits into the subtrees that
    are finished and the directories that are still open.  The store and the
    two arrays of a [Closure] are read back as such a split; the definitions
    below are what the callbacks do when seen through that reading. *)

Record Frame : Type := mkFrame {
  ftitle : string;
  flevel : Z;
  fdone : list Node }.

(** [zopen] lists the open directories, innermost first. *)
Record Zipper : Type := mkZipper {
  zroots : list Node;
  zopen : list Frame }.

Definition close (f : Frame) : Node :=
  Directory (ftitle f) (flevel f) (fdone f).

Definition zattach (n : Node) (z : Zipper) : Zipper :=
  match zopen z with
  | [] => mkZipper (zroots z ++ [n]) []
  | f :: fs =>
      mkZipper (zroots z) (mkFrame (ftitle f) (flevel f) (fdone f ++ [n]) :: fs)
  end.

Definition zpop (z : Zipper) : Zipper :=
  match zopen z with
  | [] => z
  | f :: fs => zattach (close f) (mkZipper (zroots z) fs)
  end.

Lemma zattach_length n z : length (zopen (zattach n z)) = length (zopen z).
Proof. unfold zattach. by destruct (zopen z). Qed.

Lemma zpop_length z f fs :
  zopen z = f :: fs -> length (zopen (zpop z)) = length fs.
Proof. intros E. unfold zpop. rewrite E. by rewrite zattach_length. Qed.

Equations? zpop_while (lv : Z) (z : Zipper) : Zipper
  by wf (length (zopen z)) lt :=
  zpop_while lv z with inspect (zopen z) => {
    | exist _ [] _ := z;
    | exist _ (f :: fs) Hz with (lv <=? flevel f)%Z => {
        | true := zpop_while lv (zpop z);
        | false := z } }.
Proof.
  rewrite (zpop_length _ _ _ Hz), Hz. simpl; lia.
Qed.

Definition zheading (text : string) (lv : Z) (z : Zipper) : Zipper :=
  let z1 := zpop_while lv z in
  mkZipper (zroots z1) (mkFrame text lv [] :: zopen z1).

Definition zlink (href text : string) (z : Zipper) : Zipper :=
  zattach (Link text href) z.

Definition zstep (z : Zipper) (c : RendererCall) : Zipper :=
  match c with
  | CallHeading text lv => zheading text lv z
  | CallLink href _ text => zlink href text z
  end.

Definition zrun (cs : list RendererCall) (z : Zipper) : Zipper :=
  fold_left zstep cs z.

(** Closing whatever is still open gives the finished tree. *)
Definition zclose_all (z : Zipper) : Zipper :=
  Nat.iter (length (zopen z)) zpop z.

Definition build (cs : list RendererCall) : list Node :=
  zroots (zclose_all (zrun cs (mkZipper [] []))).

(** ** Reading a state back as a zipper *)

(** [repr h lim r n]: in store [h], reference [r] is the root of the finished
    subtree [n]; every object of the subtree lies at or after [r] and before
    [lim], children after their parent. *)
#[local] Unset Elimination Schemes.
Inductive repr (h : Heap) (lim : nat) : ref -> Node -> Prop :=
| repr_link r t l :
    r < lim ->
    h !! r = Some (BookmarkItem t l) ->
    repr h lim r (Link t l)
| repr_dir r t lv cs ns :
    r < lim ->
    h !! r = Some (DirectoryItem t lv cs) ->
    Forall (lt r) cs ->
    Forall2 (repr h lim) cs ns ->
    repr h lim r (Directory t lv ns).
#[local] Set Elimination Schemes.

(** An open directory [s]: its finished children, followed by the open
    child [o] (if any); all of them before [lim]. *)
Definition frame_ok (h : Heap) (base : nat) (o : list ref) (lim : nat)
    (s : ref) (f : Frame) : Prop :=
  base <= s /\ s < lim /\
  exists cs,
    h !! s = Some (DirectoryItem (ftitle f) (flevel f) (cs ++ o)) /\
    Forall (lt s) cs /\
    Forall2 (repr h lim) cs (fdone f).

(** The stack, innermost directory first, against the open frames; at the
    bottom, the array [bookmarks] against the finished roots. *)
Fixpoint chain (h : Heap) (base : nat) (bm : list ref) (roots : list Node)
    (o : list ref) (lim : nat) (tstack : list ref) (frames : list Frame)
    : Prop :=
  match tstack, frames with
  | [], [] =>
      exists rcs,
        bm = rcs ++ o /\ Forall (le base) rcs /\ Forall2 (repr h lim) rcs roots
  | s :: tstack', f :: frames' =>
      frame_ok h base o lim s f /\ chain h base bm roots [s] s tstack' frames'
  | _, _ => False
  end.

Record Inv (h0 : Heap) (st : Closure) (z : Zipper) : Prop := mkInv {
  inv_heap : exists ext, heap st = h0 ++ ext;
  inv_chain : exists tstack,
    directoryStack st = rev tstack /\
    chain (heap st) (length h0) (bookmarks st) (zroots z) []
      (length (heap st)) tstack (zopen z) }.

(** Levels in a zipper: finished subtrees are level-monotonic, finished
    children lie deeper than the open directory that holds them, and the
    open directories get deeper towards the innermost one. *)
Definition node_ok (lv : Z) (n : Node) : bool :=
  deeper_than lv n && level_monotonic n.

Fixpoint frames_ok (fs : list Frame) : Prop :=
  match fs with
  | [] => True
  | f :: fs' =>
      Forall (fun n => node_ok (flevel f) n = true) (fdone f) /\
      match fs' with
      | [] => True
      | g :: _ => (flevel g < flevel f)%Z
      end /\
      frames_ok fs'
  end.

Definition zwf (z : Zipper) : Prop :=
  Forall (fun n => level_monotonic n = true) (zroots z) /\ frames_ok (zopen z).

(** ** The data provider *)

(** The part of the host that [readBookmarksFile] looks at:
    [vscode.workspace.workspaceFolders] (the [fsPath] of each folder, or
    nothing when no folder is open) and the two [fs] calls. *)
Record Env : Type := mkEnv {
  workspaceFolders : option (list string);
  existsSync : string -> bool;
  readFileSync : string -> result string }.

(** The fields of [BookmarksDataProvider] that [refresh] writes, with the
    store they point into: [this.bookmarks] and the payloads fired so far on
    [_onDidChangeTreeData]. *)
Record Provider : Type := mkProvider {
  store : Heap;
  this_bookmarks : list ref;
  fired : list (option ref) }.

(** A string is falsy exactly when it is empty. *)
Definition truthy (s : string) : bool := negb (String.eqb s "").

Section Host.

Variable marked : string -> list RendererCall.
Variable path_join : string -> string -> string.

Definition readBookmarksFile (env : Env) : result (option string) :=
  match workspaceFolders env with
  | None => inr None
  | Some folders =>
      match folders !! 0 with
      | None => throw TypeError
      | Some fsPath =>
          let bookmarksFilePath := path_join fsPath "BOOKMARKS.md" in
          if existsSync env bookmarksFilePath
          then content <-! readFileSync env bookmarksFilePath; inr (Some content)
          else inr None
      end
  end.

Definition refresh (env : Env) (p : Provider) : result Provider :=
  content <-! readBookmarksFile env;
  match content with
  | Some text =>
      if truthy text then
        r <-! extractBookmarks marked text (store p);
        inr (mkProvider (snd r) (fst r) (fired p ++ [None]))
      else inr p
  | None => inr p
  end.

End Host.

(** ** A line scanner for bookmark files

    Event source used to run the builder on concrete documents made of ATX
    headings and [[text](url)] links, one per line. *)

Definition newline : ascii := Ascii.ascii_of_nat 10.

Fixpoint lines_of (s : string) : list string :=
  match s with
  | EmptyString => [EmptyString]
  | String c s' =>
      if Ascii.eqb c newline then EmptyString :: lines_of s'
      else match lines_of s' with
           | l :: ls => String c l :: ls
           | [] => [String c EmptyString]
           end
  end.

Fixpoint hashes (s : string) : nat * string :=
  match s with
  | String "#"%char s' => let '(n, rest) := hashes s' in (S n, rest)
  | _ => (0, s)
  end.

(** Text before the first [stop] and the text after it. *)
Fixpoint until (stop : ascii) (s : string) : option (string * string) :=
  match s with
  | EmptyString => None
  | String c s' =>
      if Ascii.eqb c stop then Some (EmptyString, s')
      else match until stop s' with
           | Some (a, b) => Some (String c a, b)
           | None => None
           end
  end.

Definition scan_link (l : string) : list RendererCall :=
  match until "["%char l with
  | Some (_, r1) =>
      match until "]"%char r1 with
      | Some (text, String "("%char r2) =>
          match until ")"%char r2 with
          | Some (href, _) => [CallLink href None text]
          | None => []
          end
      | _ => []
      end
  | None => []
  end.

Definition scan_line (l : string) : list RendererCall :=
  match hashes l with
  | (S n, String " "%char text) => [CallHeading text (Z.of_nat (S n))]
  | _ => scan_link l
  end.

Definition line_scanner (text : string) : list RendererCall :=
  concat (map scan_line (lines_of text)).

Definition sample_doc : string :=
  String.concat (String newline EmptyString)
    ["# A"; "## B"; "- [X](http://x)"; "# C"; "- [Y](http://y)"].

(** A run of link calls, given as (href, title, text) triples, with the
    objects allocated for them and the leaves they read back as. *)
Definition link_call (l : string * option string * string) : RendererCall :=
  let '(href, title, text) := l in CallLink href title text.

Definition link_item (l : string * option string * string) : BookmarkBase :=
  let '(href, _, text) := l in BookmarkItem text href.

Definition link_node (l : string * option string * string) : Node :=
  let '(href, _, text) := l in Link text href.

Definition short_doc : string :=
  String.concat (String newline EmptyString) ["## T"; "- [a](u)"; "- [b](v)"].

(** [shallower h lv d]: directory [d] has a level below [lv], so a heading
    at level [lv] leaves it open. *)
Definition shallower (h : Heap) (lv : Z) (d : ref) : bool :=
  match level_of h d with
  | inr l => (l <? lv)%Z
  | inl _ => false
  end.

(** The snippet shared by the two callbacks: allocate [item], then hang it
    under the innermost open directory or, without one, in [bookmarks]. *)
Definition attach_fresh (item : BookmarkBase) (st : Closure) : result Closure :=
  let fresh := length (heap st) in
  let h := heap st ++ [item] in
  if 0 <? length (directoryStack st) then
    match stack_top (directoryStack st) with
    | Some d =>
        h' <-! children_push h d fresh;
        inr (mkClosure h' (bookmarks st) (directoryStack st))
    | None => throw TypeError
    end
  else inr (mkClosure h (bookmarks st ++ [fresh]) (directoryStack st)).

(** ** The rest of the provider and the commands *)

(** What the view is handed as an element: an object of the store, or the
    [NoBookmarksItem] that [getChildren] makes on the spot.  The latter has
    constant fields and is held by nothing else, so it is kept as a value. *)
Inductive TreeItem : Type :=
| StoredItem (r : ref)
| NoBookmarksItem.

Section View.

Variable marked : string -> list RendererCall.
Variable path_join : string -> string -> string.

(** [getChildren(element?)]; the promise it returns is already resolved. *)
Definition getChildren (env : Env) (element : option TreeItem) (p : Provider)
    : result (list TreeItem * Provider) :=
  match element with
  | None =>
      content <-! readBookmarksFile path_join env;
      match content with
      | Some text =>
          if truthy text then
            r <-! extractBookmarks marked text (store p);
            inr (map StoredItem (fst r),
                 mkProvider (snd r) (fst r) (fired p))
          else inr ([NoBookmarksItem], p)
      | None => inr ([NoBookmarksItem], p)
      end
  | Some NoBookmarksItem => inr ([], p)
  | Some (StoredItem r) =>
      match store p !! r with
      | Some (DirectoryItem _ _ cs) => inr (map StoredItem cs, p)
      | Some (BookmarkItem _ _) => inr ([], p)
      | None => throw TypeError
      end
  end.

(** [new BookmarksDataProvider()]: the field initialisers, then [refresh]. *)
Definition newProvider (env : Env) (h : Heap) : result Provider :=
  refresh marked path_join env (mkProvider h [] []).

(** The interval set up by [activate] calls [refresh] again and again; each
    call finds the host as it is at that moment.  A call that throws has
    assigned nothing, and the interval goes on with the next one. *)
Fixpoint poll (envs : list Env) (p : Provider) : Provider :=
  match envs with
  | [] => p
  | env :: envs' =>
      match refresh marked path_join env p with
      | inr p' => poll envs' p'
      | inl _ => poll envs' p
      end
  end.

(** The text a call of [refresh] acts on, if any. *)
Definition reading (env : Env) : option string :=
  match readBookmarksFile path_join env with
  | inr (Some text) => if truthy text then Some text else None
  | _ => None
  end.

Fixpoint latest (envs : list Env) : option string :=
  match envs with
  | [] => None
  | env :: envs' =>
      match latest envs' with
      | Some text => Some text
      | None => reading env
      end
  end.

End View.

(** Messages shown by [vscode.window]. *)
Inductive Message : Type :=
| ErrorMessage (text : string)
| InformationMessage (text : string).

(** The host as [createBookmarksFile] meets it: what [Env] holds, whether
    [fs.writeFile] reports an error for a path (and with which message), and
    the messages shown so far. *)
Record Workbench : Type := mkWorkbench {
  wb_env : Env;
  write_error : string -> option string;
  messages : list Message }.

Definition defaultContent : string :=
  String.concat (String newline EmptyString)
    ["# Default Bookmark"; "- [Good for Now](https://www.example.com)"; ""].

(** A completed [fs.writeFile(path, data)], as the two [fs] calls of
    [readBookmarksFile] see it afterwards. *)
Definition fs_write (path data : string) (env : Env) : Env :=
  mkEnv (workspaceFolders env)
    (fun q => if String.eqb q path then true else existsSync env q)
    (fun q => if String.eqb q path then inr data else readFileSync env q).

Section Commands.

Variable path_join : string -> string -> string.

(** [createBookmarksFile()], taken up to the end of the callback passed to
    [fs.writeFile]. *)
Definition createBookmarksFile (w : Workbench) : result Workbench :=
  match workspaceFolders (wb_env w) with
  | None =>
      inr (mkWorkbench (wb_env w) (write_error w)
             (messages w ++ [ErrorMessage "No workspace folder found."]))
  | Some folders =>
      match folders !! 0 with
      | None => throw TypeError
      | Some fsPath =>
          let bookmarksFilePath := path_join fsPath "BOOKMARKS.md" in
          match write_error w bookmarksFilePath with
          | Some message =>
              inr (mkWorkbench (wb_env w) (write_error w)
                     (messages w ++
                      [ErrorMessage
                         (String.append "Error creating BOOKMARKS.md: " message)]))
          | None =>
              inr (mkWorkbench
                     (fs_write bookmarksFilePath defaultContent (wb_env w))
                     (write_error w)
                     (messages w ++
                      [InformationMessage "BOOKMARKS.md created successfully!"]))
          end
      end
  end.

End Commands.

(** The children of a node of the tree. *)
Definition node_children (n : Node) : list Node :=
  match n with
  | Directory _ _ cs => cs
  | Link _ _ => []
  end.

(** The tree of a text: what a call of [extractBookmarks] in an empty store
    returns, read back. *)
Definition tree_of (marked : string -> list RendererCall) (text : string)
    : option (list Node) :=
  match extractBookmarks marked text [] with
  | inr (roots, h1) => forest h1 roots
  | inl _ => None
  end.

(** ** Order among siblings *)

(** Directories only, none deeper than the one before it ([lv] is the
    level of the directory before the first). *)
Fixpoint dirs_descending (lv : Z) (ns : list Node) : bool :=
  match ns with
  | [] => true
  | Directory _ lv' _ :: ns' => (lv' <=? lv)%Z && dirs_descending lv' ns'
  | Link _ _ :: _ => false
  end.

(** Links first, then directories none deeper than the one before it. *)
Fixpoint links_then_dirs (ns : list Node) : bool :=
  match ns with
  | [] => true
  | Link _ _ :: ns' => links_then_dirs ns'
  | Directory _ lv _ :: ns' => dirs_descending lv ns'
  end.

Definition is_link (n : Node) : bool :=
  match n with
  | Link _ _ => true
  | Directory _ _ _ => false
  end.

Fixpoint well_ordered (n : Node) : bool :=
  match n with
  | Directory _ _ cs => links_then_dirs cs && forallb well_ordered cs
  | Link _ _ => true
  end.

(** A directory of level [lv] may come next in [ns]. *)
Definition accepts (ns : list Node) (lv : Z) : bool :=
  links_then_dirs (ns ++ [Directory EmptyString lv []]).

(** A directory of level [lv] may be opened on top of the frames [fs]: the
    innermost accepts it, each frame below accepts the one above it, and
    the roots accept the outermost. *)
Fixpoint below_ok (roots : list Node) (fs : list Frame) (lv : Z) : Prop :=
  match fs with
  | [] => accepts roots lv = true
  | f :: fs' => accepts (fdone f) lv = true /\ below_ok roots fs' (flevel f)
  end.

Definition nodes_ordered (z : Zipper) : Prop :=
  Forall (fun n => well_ordered n = true) (zroots z) /\
  Forall (fun f => Forall (fun n => well_ordered n = true) (fdone f)) (zopen z).

(** Between two calls: the innermost open directory holds links only (and
    so do the roots as long as nothing is open). *)
Definition zord (z : Zipper) : Prop :=
  nodes_ordered z /\
  match zopen z with
  | [] => forallb is_link (zroots z) = true
  | f :: fs => forallb is_link (fdone f) = true /\ below_ok (zroots z) fs (flevel f)
  end.

(** While closing: what is on top is in order, and fits below. *)
Definition zclosing (z : Zipper) : Prop :=
  nodes_ordered z /\
  match zopen z with
  | [] => links_then_dirs (zroots z) = true
  | f :: fs =>
      links_then_dirs (fdone f) = true /\ below_ok (zroots z) fs (flevel f)
  end.

(** Inside the loop of a heading of level [lv]: the new directory fits on
    top of what is still open. *)
Definition zloop (lv : Z) (z : Zipper) : Prop :=
  nodes_ordered z /\ below_ok (zroots z) (zopen z) lv.

(** ** Document order *)

(** What a renderer call leaves in the tree: the link title is dropped. *)
Inductive Entry : Type :=
| EHeading (text : string) (level : Z)
| ELink (href : string) (text : string).

Definition entry_of (c : RendererCall) : Entry :=
  match c with
  | CallHeading text level => EHeading text level
  | CallLink href _ text => ELink href text
  end.

(** Parent before children, children left to right. *)
Fixpoint preorder (n : Node) : list Entry :=
  match n with
  | Directory t lv cs => EHeading t lv :: concat (map preorder cs)
  | Link t l => [ELink l t]
  end.

Definition preorder_all (ns : list Node) : list Entry :=
  concat (map preorder ns).

(** The same reading of a zipper: finished roots, then the open
    directories from the outermost to the innermost. *)
Fixpoint frames_flat (fs : list Frame) : list Entry :=
  match fs with
  | [] => []
  | f :: fs' =>
      frames_flat fs' ++ EHeading (ftitle f) (flevel f) :: preorder_all (fdone f)
  end.

Definition zflat (z : Zipper) : list Entry :=
  preorder_all (zroots z) ++ frames_flat (zopen z).

(** Headings only, given as (text, level) pairs, and the chain they form
    when each is nested in the one before. *)
Definition heading_call (x : string * Z) : RendererCall :=
  CallHeading (fst x) (snd x).

Fixpoint nest (hs : list (string * Z)) : list Node :=
  match hs with
  | [] => []
  | x :: hs' => [Directory (fst x) (snd x) (nest hs')]
  end.

(** Open directories, outermost first, closed from the innermost outwards. *)
Fixpoint fold_frames (fs : list Frame) : list Node :=
  match fs with
  | [] => []
  | f :: fs' => [Directory (ftitle f) (flevel f) (fdone f ++ fold_frames fs')]
  end.

(** ** Sections

    The tree of a sequence of entries, defined by descent instead of with a
    stack: a link is a leaf; a heading takes as its children the tree of
    the entries that follow it up to the next heading that is not deeper,
    and the rest comes after it. *)

Definition deeper (lv : Z) (e : Entry) : bool :=
  match e with
  | EHeading _ l => (lv <? l)%Z
  | ELink _ _ => true
  end.

(** The longest run of entries deeper than [lv], and what follows it. *)
Fixpoint span_section (lv : Z) (es : list Entry) : list Entry * list Entry :=
  match es with
  | [] => ([], [])
  | e :: es' =>
      if deeper lv e
      then (e :: fst (span_section lv es'), snd (span_section lv es'))
      else ([], es)
  end.

Lemma span_section_length lv es :
  length (fst (span_section lv es)) + length (snd (span_section lv es)) =
  length es.
Proof.
  induction es as [|e es IH]; simpl; [done|].
  destruct (deeper lv e); simpl; lia.
Qed.

Equations? sections (es : list Entry) : list Node by wf (length es) lt :=
  sections [] := [];
  sections (ELink href text :: es) := Link text href :: sections es;
  sections (EHeading t lv :: es) :=
    Directory t lv (sections (fst (span_section lv es))) ::
    sections (snd (span_section lv es)).
Proof.
  all: simpl; try lia.
  all: match goal with
       | |- context [span_section ?l ?e] =>
           pose proof (span_section_length l e)
       end; lia.
Qed.

(** * Properties *)

(** ** The two loops, one turn at a time *)

Lemma pop_while_turn level st :
  pop_while level st =
  match pop_guard level st with
  | inl e => inl e
  | inr true => pop_while level (stack_pop st)
  | inr false => inr st
  end.
Proof.
  rewrite pop_while_equation_1.
  unfold pop_while_unfold_clause_1, inspect.
  by destruct (pop_guard level st) as [e|[|]].
Qed.

Lemma zpop_while_turn lv z :
  zpop_while lv z =
  match zopen z with
  | [] => z
  | f :: _ => if (lv <=? flevel f)%Z then zpop_while lv (zpop z) else z
  end.
Proof.
  rewrite zpop_while_equation_1.
  destruct z as [roots [|f fs]]; [done|].
  unfold zpop_while_unfold_clause_1, inspect; simpl.
  by destruct (lv <=? flevel f)%Z.
Qed.

(** ** Arrays used as stacks *)

Lemma stack_top_snoc (l : list ref) x : stack_top (l ++ [x]) = Some x.
Proof.
  unfold stack_top. rewrite length_app. simpl.
  replace (length l + 1 - 1) with (length l) by lia.
  by rewrite list_lookup_middle.
Qed.

Lemma nonempty_snoc (l : list ref) x : (0 <? length (l ++ [x])) = true.
Proof. apply Nat.ltb_lt. rewrite length_app. simpl; lia. Qed.

Lemma stack_top_None (stack : list ref) : stack_top stack = None <-> stack = [].
Proof.
  split; [|by intros ->].
  destruct stack as [|x l] using rev_ind; [done|].
  by rewrite stack_top_snoc.
Qed.

(** ** Induction on trees *)

Lemma Node_ind (P : Node -> Prop) :
  (forall t l, P (Link t l)) ->
  (forall t lv ns, Forall P ns -> P (Directory t lv ns)) ->
  forall n, P n.
Proof.
  intros Hl Hd. fix IH 1. intros [t lv ns|t l]; [|apply Hl].
  apply Hd. revert ns. fix IHns 1. intros [|n ns].
  - constructor.
  - constructor; [apply IH | apply IHns].
Qed.

(** ** Finished subtrees in the store *)

Lemma Forall2_pointwise {A B : Type} (P Q : A -> B -> Prop) l k :
  Forall (fun y => forall x, P x y -> Q x y) k ->
  Forall2 P l k -> Forall2 Q l k.
Proof.
  intros Hk H. induction H as [|x y l k Hxy _ IH]; [constructor|].
  apply Forall_cons in Hk as [Hy Hk]. constructor; auto.
Qed.

Lemma Forall2_with_l {A B : Type} (P : A -> Prop) (R : A -> B -> Prop) l k :
  Forall P l -> Forall2 R l k -> Forall2 (fun x y => P x /\ R x y) l k.
Proof.
  intros Hl H. induction H as [|x y l k Hxy _ IH]; [constructor|].
  apply Forall_cons in Hl as [Hx Hl]. constructor; auto.
Qed.

Lemma repr_lt h lim r n : repr h lim r n -> r < lim.
Proof. by inversion 1. Qed.

Lemma repr_weaken h lim lim' r n :
  lim <= lim' -> repr h lim r n -> repr h lim' r n.
Proof.
  intros Hle. revert r. induction n as [t l|t lv ns IH] using Node_ind;
    intros r Hr; inversion Hr; subst.
  - constructor; [lia|done].
  - econstructor; [lia|done..|].
    eapply Forall2_pointwise; [exact IH|done].
Qed.

(** A finished subtree only depends on the part of the store between its
    root and its limit. *)
Lemma repr_frame h h' lim r n :
  (forall i, r <= i < lim -> h' !! i = h !! i) ->
  repr h lim r n -> repr h' lim r n.
Proof.
  revert r. induction n as [t l|t lv ns IH] using Node_ind;
    intros r Hag Hr; inversion Hr; subst.
  - constructor; [done|]. rewrite Hag; [done|lia].
  - econstructor; [done| |done|].
    + rewrite Hag; [done|lia].
    + eapply (Forall2_pointwise (fun c n => r < c /\ repr h lim c n)).
      * eapply Forall_impl; [exact IH|]. intros n Hn c [Hc Hrc].
        apply Hn; [|done]. intros i Hi. apply Hag. lia.
      * by apply Forall2_with_l.
Qed.

Lemma Forall2_repr_weaken h lim lim' cs ns :
  lim <= lim' -> Forall2 (repr h lim) cs ns -> Forall2 (repr h lim') cs ns.
Proof.
  intros Hle H. eapply Forall2_impl; [exact H|].
  intros r n. by apply repr_weaken.
Qed.

Lemma Forall2_repr_frame h h' lim lo cs ns :
  (forall i, lo <= i < lim -> h' !! i = h !! i) ->
  Forall (le lo) cs ->
  Forall2 (repr h lim) cs ns -> Forall2 (repr h' lim) cs ns.
Proof.
  intros Hag Hlo H. induction H as [|c n cs ns Hc _ IH].
  - constructor.
  - apply Forall_cons in Hlo as [Hc' Hcs]. constructor; [|by apply IH].
    eapply repr_frame; [|done]. intros i Hi. apply Hag. lia.
Qed.

(** Following references for as many steps as the store is long reads a
    finished subtree back in full. *)
Lemma repr_reify h lim r n :
  repr h lim r n -> forall fuel, lim <= r + fuel -> reify fuel h r = Some n.
Proof.
  revert r. induction n as [t l|t lv ns IH] using Node_ind;
    intros r Hr fuel Hfuel; inversion Hr; subst;
    (destruct fuel as [|fuel]; [lia|]); simpl.
  - by match goal with H : h !! r = _ |- _ => rewrite H end.
  - match goal with H : h !! r = _ |- _ => rewrite H end.
    assert (mapM (reify fuel h) cs = Some ns) as ->; [|done].
    apply mapM_Some.
    eapply (Forall2_pointwise (fun c n => r < c /\ repr h lim c n)).
    + eapply Forall_impl; [exact IH|]. intros n Hn c [Hc Hrc].
      apply Hn; [done|lia].
    + by apply Forall2_with_l.
Qed.

Lemma repr_forest h roots ns :
  Forall2 (repr h (length h)) roots ns -> forest h roots = Some ns.
Proof.
  intros H. apply mapM_Some. eapply Forall2_impl; [exact H|].
  intros r n Hr. simpl. eapply repr_reify; [exact Hr|lia].
Qed.

(** ** The stack against the open frames *)

Lemma frame_ok_frame h h' base o lim s f :
  (forall i, base <= i < lim -> h' !! i = h !! i) ->
  frame_ok h base o lim s f -> frame_ok h' base o lim s f.
Proof.
  intros Hag (Hb & Hl & cs & Hs & Hcs & Hrep).
  split; [done|]. split; [done|]. exists cs. split; [|split; [done|]].
  - rewrite Hag; [done|lia].
  - eapply (Forall2_repr_frame h h' lim (S s)); [|done..].
    intros i Hi. apply Hag. lia.
Qed.

Lemma chain_frame h h' base bm roots tstack :
  forall frames o lim,
  (forall i, base <= i < lim -> h' !! i = h !! i) ->
  chain h base bm roots o lim tstack frames ->
  chain h' base bm roots o lim tstack frames.
Proof.
  induction tstack as [|s tstack IH]; intros [|f frames] o lim Hag; simpl;
    try done.
  - intros (rcs & -> & Hb & Hrep). exists rcs. split; [done|]. split; [done|].
    by eapply Forall2_repr_frame.
  - intros [Hf Hc]. split; [by eapply frame_ok_frame|].
    apply IH; [|done]. intros i Hi. apply Hag.
    destruct Hf as (_ & ? & _). lia.
Qed.

Lemma chain_lengths h base bm roots tstack :
  forall frames o lim,
  chain h base bm roots o lim tstack frames -> length tstack = length frames.
Proof.
  induction tstack as [|s tstack IH]; intros [|f frames] o lim; simpl;
    try done.
  intros [_ Hc]. f_equal. by eapply IH.
Qed.

(** The open child [s] of the innermost remaining directory is finished:
    it becomes one more finished child (or root). *)
Lemma chain_close h base bm roots s L n tstack frames :
  base <= s -> s < L ->
  repr h L s n ->
  chain h base bm roots [s] s tstack frames ->
  let z' := zattach n (mkZipper roots frames) in
  chain h base bm (zroots z') [] L tstack (zopen z').
Proof.
  intros Hb HL Hn. destruct tstack as [|p tstack], frames as [|g frames];
    simpl; try done.
  - intros (rcs & -> & Hrb & Hrep). exists (rcs ++ [s]).
    split; [by rewrite app_nil_r|]. split.
    + apply Forall_app. split; [done|]. by constructor.
    + apply Forall2_app; [|by repeat constructor].
      eapply Forall2_repr_weaken; [|done]. lia.
  - intros [(Hpb & Hps & cs & Hp & Hcs & Hrep) Hc]. split; [|done].
    split; [done|]. split; [lia|]. exists (cs ++ [s]). simpl.
    split; [by rewrite app_nil_r|]. split.
    + apply Forall_app. split; [done|]. by constructor.
    + apply Forall2_app; [|by repeat constructor].
      eapply Forall2_repr_weaken; [|done]. lia.
Qed.

Lemma frame_ok_repr h base L s f :
  frame_ok h base [] L s f -> repr h L s (close f).
Proof.
  intros (_ & Hl & cs & Hs & Hcs & Hrep). rewrite app_nil_r in Hs.
  by econstructor.
Qed.

(** [directoryStack.pop()] leaves the store alone; seen as a zipper, the
    innermost open directory moves to the finished children of the next. *)
Lemma chain_pop h base bm roots L s tstack f frames :
  chain h base bm roots [] L (s :: tstack) (f :: frames) ->
  let z' := zpop (mkZipper roots (f :: frames)) in
  chain h base bm (zroots z') [] L tstack (zopen z').
Proof.
  simpl. intros [Hf Hc]. unfold zpop; simpl.
  pose proof (frame_ok_repr _ _ _ _ _ Hf) as Hn.
  destruct Hf as (Hb & HL & _).
  by apply (chain_close h base bm roots s L (close f) tstack frames).
Qed.

Lemma Inv_base h0 st z : Inv h0 st z -> length h0 <= length (heap st).
Proof. intros [[ext ->] _]. rewrite length_app. lia. Qed.

Lemma stack_pop_sim h0 st roots f frames :
  Inv h0 st (mkZipper roots (f :: frames)) ->
  Inv h0 (stack_pop st) (zpop (mkZipper roots (f :: frames))).
Proof.
  intros [Hh (tstack & Hst & Hc)]. split; [done|].
  destruct tstack as [|s tstack]; [done|].
  exists tstack. split.
  - unfold stack_pop; simpl. rewrite Hst. simpl. by rewrite removelast_last.
  - by apply chain_pop in Hc.
Qed.

Lemma pop_while_sim h0 lv n :
  forall st z,
  length (zopen z) <= n ->
  Inv h0 st z ->
  exists st',
    pop_while lv st = inr st' /\ Inv h0 st' (zpop_while lv z) /\
    heap st' = heap st /\ bookmarks st' = bookmarks st.
Proof.
  induction n as [|n IH]; intros st [roots frames] Hn HI;
    rewrite pop_while_turn, zpop_while_turn;
    pose proof HI as [_ (tstack & Hst & Hc)]; simpl in *;
    destruct tstack as [|s tstack], frames as [|f frames]; try done;
    try (simpl in Hn; lia).
  - unfold pop_guard. rewrite Hst. simpl. by exists st.
  - unfold pop_guard. rewrite Hst. simpl. by exists st.
  - unfold pop_guard. rewrite Hst. simpl rev.
    rewrite nonempty_snoc, stack_top_snoc.
    destruct Hc as [(_ & _ & cs & Hs & _) _].
    unfold level_of. rewrite Hs. simpl.
    destruct (lv <=? flevel f)%Z; [|by exists st].
    destruct (IH (stack_pop st) (zpop (mkZipper roots (f :: frames))))
      as (st' & Hrun & HI' & Hh & Hb).
    + erewrite zpop_length; [|done]. simpl in Hn. lia.
    + by apply stack_pop_sim.
    + by exists st'.
Qed.

(** ** The two callbacks, seen through the zipper *)

Lemma link_alt href title text st :
  link href title text st = attach_fresh (BookmarkItem text href) st.
Proof. reflexivity. Qed.

Lemma heading_alt text level st :
  heading text level st =
  (st1 <-! pop_while level st;
   st2 <-! attach_fresh (DirectoryItem text level []) st1;
   inr (mkClosure (heap st2) (bookmarks st2)
          (directoryStack st2 ++ [length (heap st1)]))).
Proof. reflexivity. Qed.

(** After the shared snippet the fresh object sits at the end of the store
    and is the open child of what was the innermost directory. *)
Lemma attach_fresh_spec h0 st z item tstack :
  (exists ext, heap st = h0 ++ ext) ->
  directoryStack st = rev tstack ->
  chain (heap st) (length h0) (bookmarks st) (zroots z) []
    (length (heap st)) tstack (zopen z) ->
  exists st',
    attach_fresh item st = inr st' /\
    directoryStack st' = directoryStack st /\
    length (heap st') = S (length (heap st)) /\
    (exists ext, heap st' = h0 ++ ext) /\
    heap st' !! length (heap st) = Some item /\
    chain (heap st') (length h0) (bookmarks st') (zroots z)
      [length (heap st)] (length (heap st)) tstack (zopen z).
Proof.
  intros [ext Hh] Hst Hc. destruct st as [h bm stack]; simpl in *. subst.
  destruct z as [roots frames]; simpl in *.
  unfold attach_fresh; simpl.
  destruct tstack as [|s tstack], frames as [|f frames]; simpl in *; try done.
  - destruct Hc as (rcs & -> & Hrb & Hrep). rewrite app_nil_r.
    eexists. split; [done|]. simpl.
    split; [done|]. split; [rewrite !length_app; simpl; lia|].
    split; [exists (ext ++ [item]); by rewrite app_assoc|].
    split; [by rewrite list_lookup_middle|].
    exists rcs. split; [done|]. split; [done|].
    eapply Forall2_repr_frame; [|done..].
    intros i Hi. simpl. by rewrite lookup_app_l by lia.
  - rewrite nonempty_snoc, stack_top_snoc.
    destruct Hc as [(Hb & Hl & cs & Hs & Hcs & Hrep) Hc].
    rewrite app_nil_r in Hs.
    unfold children_push. rewrite lookup_app_l by done. rewrite Hs. simpl.
    eexists. split; [done|]. simpl.
    split; [done|].
    split; [rewrite length_insert, !length_app; simpl; lia|].
    split.
    { rewrite <- app_assoc. rewrite insert_app_r_alt by done. by eexists. }
    split.
    { rewrite list_lookup_insert_ne by lia. by rewrite list_lookup_middle. }
    assert (forall i, i < length (h0 ++ ext) -> i <> s ->
              <[s:=DirectoryItem (ftitle f) (flevel f) (cs ++ [length (h0 ++ ext)])]>
                ((h0 ++ ext) ++ [item]) !! i = (h0 ++ ext) !! i) as Hag.
    { intros i Hi Hne. rewrite list_lookup_insert_ne by done.
      by rewrite lookup_app_l. }
    split.
    + split; [done|]. split; [done|]. exists cs. split; [|split; [done|]].
      * rewrite list_lookup_insert_eq; [done|]. rewrite length_app. lia.
      * eapply (Forall2_repr_frame _ _ _ (S s)); [|done..].
        intros i Hi. apply Hag; lia.
    + eapply chain_frame; [|done]. intros i Hi. apply Hag; lia.
Qed.

Lemma link_sim h0 st z href title text :
  Inv h0 st z ->
  exists st',
    link href title text st = inr st' /\ Inv h0 st' (zlink href text z).
Proof.
  intros HI. pose proof (Inv_base _ _ _ HI) as Hbase.
  destruct HI as [Hh (tstack & Hst & Hc)].
  destruct (attach_fresh_spec h0 st z (BookmarkItem text href) tstack Hh Hst Hc)
    as (st' & Hrun & Hst' & Hlen & Hh' & Hnew & Hc').
  exists st'. split; [by rewrite link_alt|]. split; [done|].
  exists tstack. split; [congruence|]. rewrite Hlen.
  destruct z as [roots frames].
  apply (chain_close _ _ _ _ (length (heap st))); [done|lia| |done].
  constructor; [lia|done].
Qed.

Lemma heading_sim h0 st z text lv :
  Inv h0 st z ->
  exists st',
    heading text lv st = inr st' /\ Inv h0 st' (zheading text lv z).
Proof.
  intros HI.
  destruct (pop_while_sim h0 lv _ st z (le_n _) HI)
    as (st1 & Hpop & HI1 & Hheap & Hbm).
  pose proof (Inv_base _ _ _ HI1) as Hbase.
  destruct HI1 as [Hh (tstack & Hst & Hc)].
  destruct (attach_fresh_spec h0 st1 _ (DirectoryItem text lv []) tstack Hh Hst Hc)
    as (st2 & Hrun & Hst2 & Hlen & Hh2 & Hnew & Hc2).
  rewrite heading_alt, Hpop. simpl. rewrite Hrun. simpl.
  eexists. split; [done|]. split; [done|]. simpl.
  exists (length (heap st1) :: tstack). split.
  - simpl. congruence.
  - rewrite Hlen. unfold zheading; simpl. split; [|done].
    split; [done|]. split; [lia|]. exists []. simpl.
    split; [done|]. split; constructor.
Qed.

Lemma Inv_init h0 : Inv h0 (mkClosure h0 [] []) (mkZipper [] []).
Proof.
  split; simpl.
  - exists []. by rewrite app_nil_r.
  - exists []. split; [done|]. simpl. exists []. repeat split; constructor.
Qed.

Lemma run_calls_sim h0 calls :
  forall st z,
  Inv h0 st z ->
  exists st', run_calls calls st = inr st' /\ Inv h0 st' (zrun calls z).
Proof.
  induction calls as [|c calls IH]; intros st z HI; simpl.
  - by exists st.
  - assert (exists st1, dispatch c st = inr st1 /\ Inv h0 st1 (zstep z c))
      as (st1 & -> & HI1).
    { destruct c as [text lv|href title text]; simpl.
      - by apply heading_sim.
      - by apply link_sim. }
    simpl. by apply IH.
Qed.

(** Every reachable state reads back as a zipper. *)
Lemma reachable_Inv st :
  reachable st -> exists h0 calls, Inv h0 st (zrun calls (mkZipper [] [])).
Proof.
  intros (h0 & calls & Hrun). exists h0, calls.
  destruct (run_calls_sim h0 calls _ _ (Inv_init h0)) as (st' & Hrun' & HI).
  congruence.
Qed.

(** Closing the directories left open at the end changes nothing in the
    store. *)
Lemma Inv_close_all (h0 : Heap) n :
  forall (h : Heap) bm tstack z,
  length (zopen z) = n ->
  chain h (length h0) bm (zroots z) [] (length h) tstack (zopen z) ->
  Forall2 (repr h (length h)) bm (zroots (Nat.iter n zpop z)).
Proof.
  induction n as [|n IH]; intros h bm tstack [roots frames] Hn Hc;
    simpl in Hn.
  - destruct frames; [|done]. destruct tstack; [|done]. simpl in *.
    destruct Hc as (rcs & -> & _ & Hrep). by rewrite app_nil_r.
  - destruct frames as [|f frames]; [done|].
    destruct tstack as [|s tstack]; [done|].
    rewrite Nat.iter_succ_r. apply (IH h bm tstack).
    + erewrite zpop_length; [|done]. simpl in Hn. lia.
    + exact (chain_pop _ _ _ _ _ _ _ _ _ Hc).
Qed.

(** The builder never fails; it only extends the store; and the array it
    returns reads back as the tree [build] computes from the calls. *)
Theorem extractBookmarks_build marked text h0 :
  exists roots h1,
    extractBookmarks marked text h0 = inr (roots, h1) /\
    (exists ext, h1 = h0 ++ ext) /\
    Forall2 (repr h1 (length h1)) roots (build (marked text)).
Proof.
  destruct (run_calls_sim h0 (marked text) _ _ (Inv_init h0))
    as (st & Hrun & [Hh (tstack & Hst & Hc)]).
  exists (bookmarks st), (heap st). unfold extractBookmarks. rewrite Hrun.
  split; [done|]. split; [done|].
  unfold build, zclose_all. by eapply Inv_close_all.
Qed.

Corollary extractBookmarks_forest marked text h0 :
  exists roots h1,
    extractBookmarks marked text h0 = inr (roots, h1) /\
    forest h1 roots = Some (build (marked text)).
Proof.
  destruct (extractBookmarks_build marked text h0) as (roots & h1 & ? & _ & ?).
  exists roots, h1. split; [done|]. by apply repr_forest.
Qed.

(** ** Levels along the open directories *)

Lemma forallb_Forall {A : Type} (p : A -> bool) l :
  forallb p l = true <-> Forall (fun x => p x = true) l.
Proof.
  induction l as [|x l IH]; simpl.
  - split; [constructor|done].
  - rewrite andb_true_iff, Forall_cons. by rewrite IH.
Qed.

Lemma zattach_zwf n z :
  match zopen z with
  | [] => level_monotonic n = true
  | f :: _ => node_ok (flevel f) n = true
  end ->
  zwf z -> zwf (zattach n z).
Proof.
  destruct z as [roots [|f fs]]; unfold zattach, zwf; simpl.
  - intros Hn [Hr _]. split; [|done]. apply Forall_app. split; [done|].
    by constructor.
  - intros Hn [Hr (Hd & Hlt & Hfs)]. split; [done|]. split; [|done].
    apply Forall_app. split; [done|]. by constructor.
Qed.

Lemma close_ok f :
  Forall (fun n => node_ok (flevel f) n = true) (fdone f) ->
  level_monotonic (close f) = true.
Proof. intros H. simpl. by apply forallb_Forall. Qed.

Lemma zpop_zwf z : zwf z -> zwf (zpop z).
Proof.
  destruct z as [roots [|f fs]]; unfold zpop; simpl; [done|].
  intros [Hr (Hd & Hlt & Hfs)]. apply zattach_zwf; simpl; [|done].
  destruct fs as [|g fs].
  - by apply close_ok.
  - unfold node_ok. apply andb_true_iff. split.
    + simpl. by apply Z.ltb_lt.
    + by apply close_ok.
Qed.

(** When the abstract loop stops, whatever is still open is shallower than
    the new heading. *)
Lemma zpop_while_zwf lv n :
  forall z,
  length (zopen z) <= n ->
  zwf z ->
  zwf (zpop_while lv z) /\
  match zopen (zpop_while lv z) with
  | [] => True
  | g :: _ => (flevel g < lv)%Z
  end.
Proof.
  induction n as [|n IH]; intros [roots frames] Hn Hz;
    rewrite zpop_while_turn; simpl in *;
    destruct frames as [|f frames]; try done; try (simpl in Hn; lia).
  destruct (lv <=? flevel f)%Z eqn:E.
  - apply IH; [|by apply zpop_zwf].
    erewrite zpop_length; [|done]. simpl in Hn. lia.
  - split; [done|]. simpl. apply Z.leb_gt in E. lia.
Qed.

Lemma zstep_zwf z c : zwf z -> zwf (zstep z c).
Proof.
  intros Hz. destruct c as [text lv|href title text]; simpl.
  - destruct (zpop_while_zwf lv _ z (le_n _) Hz) as [[Hr Hf] Hlt].
    unfold zheading. split; [done|]. simpl. split; [constructor|].
    split; [|done]. by destruct (zopen (zpop_while lv z)).
  - apply zattach_zwf; [|done]. by destruct (zopen z).
Qed.

Lemma zrun_zwf calls : forall z, zwf z -> zwf (zrun calls z).
Proof.
  induction calls as [|c calls IH]; intros z Hz; simpl; [done|].
  apply IH. by apply zstep_zwf.
Qed.

Lemma iter_zpop_zwf n : forall z, zwf z -> zwf (Nat.iter n zpop z).
Proof.
  induction n as [|n IH]; intros z Hz; simpl; [done|].
  apply zpop_zwf. by apply IH.
Qed.

Lemma build_monotonic calls : forallb level_monotonic (build calls) = true.
Proof.
  apply forallb_Forall.
  unfold build, zclose_all.
  apply iter_zpop_zwf, zrun_zwf. split; constructor.
Qed.

(** ** What the builder returns *)

Lemma zheading_fresh text lv :
  zheading text lv (mkZipper [] []) = mkZipper [] [mkFrame text lv []].
Proof. unfold zheading. by rewrite zpop_while_turn. Qed.

Lemma zrun_links links :
  forall roots t lv done fs,
  zrun (map link_call links) (mkZipper roots (mkFrame t lv done :: fs)) =
  mkZipper roots (mkFrame t lv (done ++ map link_node links) :: fs).
Proof.
  induction links as [|[[href title] text] links IH]; intros; simpl.
  - by rewrite app_nil_r.
  - unfold zlink, zattach; simpl. rewrite IH. by rewrite <- app_assoc.
Qed.

Lemma build_heading_links text lv links :
  build (CallHeading text lv :: map link_call links) =
  [Directory text lv (map link_node links)].
Proof.
  unfold build. simpl. rewrite zheading_fresh, zrun_links. reflexivity.
Qed.

(** C1.  On the document [# A / ## B / - [X](http://x) / # C / - [Y](http://y)],
    for which the markdown library calls heading A (1), heading B (2),
    link X, heading C (1), link Y, [extractBookmarks] returns two roots:
    directory A holding directory B holding link X, and directory C holding
    link Y.  This holds in whatever store the call starts. *)
Theorem extractBookmarks_sample marked h0 :
  marked sample_doc =
    [CallHeading "A" 1%Z; CallHeading "B" 2%Z; CallLink "http://x" None "X";
     CallHeading "C" 1%Z; CallLink "http://y" None "Y"] ->
  exists roots h1,
    extractBookmarks marked sample_doc h0 = inr (roots, h1) /\
    forest h1 roots =
      Some [Directory "A" 1%Z [Directory "B" 2%Z [Link "X" "http://x"]];
            Directory "C" 1%Z [Link "Y" "http://y"]].
Proof.
  intros Hcalls.
  destruct (extractBookmarks_forest marked sample_doc h0)
    as (roots & h1 & Hrun & Hforest).
  exists roots, h1. split; [done|]. rewrite Hforest, Hcalls. reflexivity.
Qed.

Lemma extractBookmarks_sample_witness :
  exists roots h1,
    extractBookmarks line_scanner sample_doc [] = inr (roots, h1) /\
    forest h1 roots =
      Some [Directory "A" 1%Z [Directory "B" 2%Z [Link "X" "http://x"]];
            Directory "C" 1%Z [Link "Y" "http://y"]].
Proof. apply (extractBookmarks_sample line_scanner []). reflexivity. Defined.

(** C4.  When the calls are one heading at level [lv] followed by [N] links
    and nothing else, the result is a single root directory at level [lv]
    whose children are exactly the [N] links, in call order. *)
Theorem extractBookmarks_heading_links marked text h0 title lv links :
  marked text = CallHeading title lv :: map link_call links ->
  exists roots h1 children,
    extractBookmarks marked text h0 = inr (roots, h1) /\
    length roots = 1 /\
    forest h1 roots = Some [Directory title lv children] /\
    children = map link_node links /\
    length children = length links.
Proof.
  intros Hcalls.
  destruct (extractBookmarks_build marked text h0)
    as (roots & h1 & Hrun & _ & Hrep).
  exists roots, h1, (map link_node links). split; [done|].
  rewrite Hcalls, build_heading_links in Hrep.
  split; [by apply Forall2_length in Hrep|].
  split; [by apply repr_forest|]. split; [done|]. apply length_map.
Qed.

Lemma extractBookmarks_heading_links_witness :
  exists roots h1,
    extractBookmarks line_scanner short_doc [] = inr (roots, h1) /\
    length roots = 1 /\
    forest h1 roots = Some [Directory "T" 2%Z [Link "a" "u"; Link "b" "v"]].
Proof.
  destruct (extractBookmarks_heading_links line_scanner short_doc [] "T" 2%Z
              [("u", None, "a"); ("v", None, "b")])
    as (roots & h1 & children & Hrun & Hlen & Hforest & -> & _).
  - reflexivity.
  - by exists roots, h1.
Defined.

Lemma level_monotonic_within m n :
  within m n -> level_monotonic n = true -> level_monotonic m = true.
Proof.
  induction 1 as [|t lv cs c Hc _ IH]; [done|].
  intros Hn. apply IH. simpl in Hn. apply forallb_Forall in Hn.
  rewrite Forall_forall in Hn. specialize (Hn c Hc).
  by apply andb_true_iff in Hn as [_ ?].
Qed.

(** C6.  In the tree the builder returns, every directory that is a child
    of a directory has a strictly greater level than its parent, at every
    depth. *)
Theorem extractBookmarks_level_monotonic marked text h0 :
  exists roots h1 ns,
    extractBookmarks marked text h0 = inr (roots, h1) /\
    forest h1 roots = Some ns /\
    forallb level_monotonic ns = true /\
    forall root t lv cs t' lv' cs',
      root ∈ ns ->
      within (Directory t lv cs) root ->
      Directory t' lv' cs' ∈ cs ->
      (lv < lv')%Z.
Proof.
  destruct (extractBookmarks_forest marked text h0)
    as (roots & h1 & Hrun & Hforest).
  exists roots, h1, (build (marked text)).
  split; [done|]. split; [done|].
  pose proof (build_monotonic (marked text)) as Hmono.
  split; [done|].
  intros root t lv cs t' lv' cs' Hroot Hin Hchild.
  apply forallb_Forall in Hmono. rewrite Forall_forall in Hmono.
  pose proof (level_monotonic_within _ _ Hin (Hmono root Hroot)) as Hdir.
  simpl in Hdir. apply forallb_Forall in Hdir. rewrite Forall_forall in Hdir.
  specialize (Hdir _ Hchild). apply andb_true_iff in Hdir as [Hlt _].
  by apply Z.ltb_lt in Hlt.
Qed.

Lemma extractBookmarks_level_monotonic_witness :
  exists roots h1 ns,
    extractBookmarks line_scanner sample_doc [] = inr (roots, h1) /\
    forest h1 roots = Some ns /\
    forallb level_monotonic ns = true /\
    (1 < 2)%Z.
Proof.
  destruct (extractBookmarks_level_monotonic line_scanner sample_doc [])
    as (roots & h1 & ns & Hrun & Hforest & Hmono & Hlt).
  exists roots, h1, ns. repeat (split; [done|]).
  vm_compute in Hrun. injection Hrun as <- <-.
  vm_compute in Hforest. injection Hforest as <-.
  apply (Hlt (Directory "A" 1%Z [Directory "B" 2%Z [Link "X" "http://x"]])
             "A" 1%Z [Directory "B" 2%Z [Link "X" "http://x"]]
             "B" 2%Z [Link "X" "http://x"]).
  - apply list_elem_of_here.
  - apply within_here.
  - apply list_elem_of_here.
Defined.

(** C7.  When the document makes the library call neither callback, the
    builder returns the empty array (and allocates nothing); it does not
    fail. *)
Theorem extractBookmarks_no_calls marked text h0 :
  marked text = [] ->
  extractBookmarks marked text h0 = inr ([], h0) /\ forest h0 [] = Some [].
Proof. intros Hcalls. unfold extractBookmarks. by rewrite Hcalls. Qed.

Lemma extractBookmarks_no_calls_witness :
  extractBookmarks line_scanner "" [] = inr ([], []) /\ forest [] [] = Some [].
Proof. apply (extractBookmarks_no_calls line_scanner "" []). reflexivity. Defined.

(** C8.  The tree only depends on the text.  Started in any two stores, two
    calls on the same text return arrays that read back as the same tree;
    and when the second call runs in the store the first one left, the
    array of the first call still reads back as that tree afterwards. *)
Theorem extractBookmarks_deterministic marked text h0 h0' :
  exists roots1 h1 roots2 h2 roots3 h3 ns,
    extractBookmarks marked text h0 = inr (roots1, h1) /\
    extractBookmarks marked text h0' = inr (roots2, h2) /\
    extractBookmarks marked text h1 = inr (roots3, h3) /\
    forest h1 roots1 = Some ns /\
    forest h2 roots2 = Some ns /\
    forest h3 roots3 = Some ns /\
    forest h3 roots1 = Some ns.
Proof.
  destruct (extractBookmarks_build marked text h0)
    as (roots1 & h1 & Hrun1 & _ & Hrep1).
  destruct (extractBookmarks_forest marked text h0')
    as (roots2 & h2 & Hrun2 & Hf2).
  destruct (extractBookmarks_build marked text h1)
    as (roots3 & h3 & Hrun3 & [ext ->] & Hrep3).
  exists roots1, h1, roots2, h2, roots3, (h1 ++ ext), (build (marked text)).
  repeat (split; [done || by apply repr_forest|]).
  apply repr_forest.
  apply (Forall2_repr_weaken _ (length h1)); [rewrite length_app; lia|].
  apply (Forall2_repr_frame h1 _ _ 0); [|apply Forall_forall; lia|done].
  intros i Hi. by rewrite lookup_app_l by lia.
Qed.

(** C9.  On every text the builder returns an array that reads back as a
    tree: no callback fails, and the [while] loop of [renderer.heading]
    ends because each turn it takes shortens the stack. *)
Theorem extractBookmarks_total marked text h0 :
  (exists roots h1 ns,
     extractBookmarks marked text h0 = inr (roots, h1) /\
     forest h1 roots = Some ns) /\
  (forall level st,
     pop_guard level st = inr true ->
     length (directoryStack (stack_pop st)) < length (directoryStack st)).
Proof.
  split.
  - destruct (extractBookmarks_forest marked text h0)
      as (roots & h1 & Hrun & Hforest).
    by exists roots, h1, (build (marked text)).
  - intros level st Hg. apply stack_pop_length.
    by apply pop_guard_nonempty with level.
Qed.

Lemma extractBookmarks_total_witness :
  length (directoryStack (stack_pop (mkClosure [DirectoryItem "A" 2%Z []] [0] [0])))
  < length (directoryStack (mkClosure [DirectoryItem "A" 2%Z []] [0] [0])).
Proof.
  apply (proj2 (extractBookmarks_total line_scanner "" []) 1%Z).
  reflexivity.
Defined.

(** ** One callback at a time, in a reachable state *)

Lemma run_calls_app cs1 cs2 st :
  run_calls (cs1 ++ cs2) st = (st' <-! run_calls cs1 st; run_calls cs2 st').
Proof.
  revert st. induction cs1 as [|c cs1 IH]; intros st; simpl; [done|].
  destruct (dispatch c st) as [e|st1]; simpl; [done|]. apply IH.
Qed.

Lemma reachable_step st c st' :
  reachable st -> dispatch c st = inr st' -> reachable st'.
Proof.
  intros (h0 & calls & Hrun) Hstep. exists h0, (calls ++ [c]).
  rewrite run_calls_app, Hrun. simpl. by rewrite Hstep.
Qed.

Lemma reachable_zwf st :
  reachable st -> exists h0 z, Inv h0 st z /\ zwf z.
Proof.
  intros Hst. destruct (reachable_Inv st Hst) as (h0 & calls & HI).
  exists h0, (zrun calls (mkZipper [] [])). split; [done|].
  apply zrun_zwf. split; constructor.
Qed.

Lemma filter_all {A : Type} (p : A -> bool) l :
  Forall (fun x => p x = true) l -> List.filter p l = l.
Proof.
  induction 1 as [|x l Hx _ IH]; simpl; [done|]. by rewrite Hx, IH.
Qed.

Lemma filter_sound {A : Type} (p : A -> bool) l :
  Forall (fun x => p x = true) (List.filter p l).
Proof.
  induction l as [|x l IH]; simpl; [constructor|].
  destruct (p x) eqn:E; [by constructor|done].
Qed.

Lemma filter_snoc {A : Type} (p : A -> bool) l x :
  List.filter p (l ++ [x]) =
  List.filter p l ++ (if p x then [x] else []).
Proof.
  induction l as [|y l IH]; simpl; [done|]. rewrite IH.
  by destruct (p y).
Qed.

Lemma chain_levels h base bm roots tstack :
  forall frames o lim,
  chain h base bm roots o lim tstack frames ->
  Forall2 (fun s f => level_of h s = inr (flevel f)) tstack frames.
Proof.
  induction tstack as [|s tstack IH]; intros [|f frames] o lim Hc;
    simpl in Hc; try done.
  destruct Hc as [(_ & _ & cs & Hs & _) Hc]. constructor; [|by eapply IH].
  unfold level_of. by rewrite Hs.
Qed.

Lemma frames_ok_below f fs :
  frames_ok (f :: fs) -> Forall (fun g => (flevel g < flevel f)%Z) fs.
Proof.
  revert f. induction fs as [|g fs IH]; intros f; [constructor|].
  intros (_ & Hlt & Hfs). constructor; [done|].
  eapply Forall_impl; [by apply IH|]. simpl. intros. lia.
Qed.

(** The loop pops exactly the directories that are not shallower than the
    new heading: levels grow towards the top of the stack. *)
Lemma pop_while_filter h bm lv tstack frames :
  Forall2 (fun s f => level_of h s = inr (flevel f)) tstack frames ->
  frames_ok frames ->
  pop_while lv (mkClosure h bm (rev tstack)) =
  inr (mkClosure h bm (List.filter (shallower h lv) (rev tstack))).
Proof.
  induction 1 as [|s f tstack frames Hs Hrest IH]; intros Hok;
    rewrite pop_while_turn; unfold pop_guard; simpl.
  - done.
  - rewrite nonempty_snoc, stack_top_snoc, Hs. simpl.
    rewrite filter_snoc. unfold shallower at 2. rewrite Hs.
    destruct (lv <=? flevel f)%Z eqn:E.
    + apply Z.leb_le in E. apply Z.ltb_ge in E. rewrite E, app_nil_r.
      unfold stack_pop; simpl. rewrite removelast_last. apply IH.
      by destruct Hok as (_ & _ & ?).
    + apply Z.leb_gt in E. pose proof E as E'. apply Z.ltb_lt in E'.
      rewrite E'. f_equal. f_equal. f_equal.
      symmetry. apply filter_all. apply Forall_rev.
      pose proof (frames_ok_below _ _ Hok) as Hbelow.
      clear IH Hok. induction Hrest as [|s' g ts gs Hs' _ IH'];
        [constructor|].
      apply Forall_cons in Hbelow as [Hg Hbelow].
      constructor; [|by apply IH'].
      unfold shallower. rewrite Hs'. apply Z.ltb_lt. lia.
Qed.

(** What the shared snippet does to the store and the two arrays. *)
Lemma attach_fresh_effect h0 st z item :
  Inv h0 st z ->
  exists st',
    attach_fresh item st = inr st' /\
    directoryStack st' = directoryStack st /\
    length (heap st') = S (length (heap st)) /\
    heap st' !! length (heap st) = Some item /\
    (forall d, d < length (heap st) ->
       level_of (heap st') d = level_of (heap st) d) /\
    match stack_top (directoryStack st) with
    | Some p =>
        bookmarks st' = bookmarks st /\
        exists t l cs,
          heap st !! p = Some (DirectoryItem t l cs) /\
          heap st' !! p = Some (DirectoryItem t l (cs ++ [length (heap st)])) /\
          forall i, i <> p -> i < length (heap st) ->
            heap st' !! i = heap st !! i
    | None =>
        bookmarks st' = bookmarks st ++ [length (heap st)] /\
        heap st' = heap st ++ [item]
    end.
Proof.
  intros [_ (tstack & Hst & Hc)]. destruct st as [h bm stack]; simpl in *.
  subst stack. unfold attach_fresh; simpl.
  destruct tstack as [|s tstack], (zopen z) as [|f frames]; simpl in *;
    try done.
  - eexists. split; [done|]. simpl. split; [done|].
    split; [rewrite length_app; simpl; lia|].
    split; [by rewrite list_lookup_middle|].
    split; [|done]. intros d Hd. unfold level_of.
    by rewrite lookup_app_l.
  - rewrite nonempty_snoc, stack_top_snoc.
    destruct Hc as [(_ & Hl & cs & Hs & _) _]. rewrite app_nil_r in Hs.
    unfold children_push. rewrite lookup_app_l by done. rewrite Hs. simpl.
    eexists. split; [done|]. simpl. split; [done|].
    split; [rewrite length_insert, length_app; simpl; lia|].
    split.
    { rewrite list_lookup_insert_ne by lia. by rewrite list_lookup_middle. }
    assert (forall i, i <> s -> i < length h ->
              <[s:=DirectoryItem (ftitle f) (flevel f) (cs ++ [length h])]>
                (h ++ [item]) !! i = h !! i) as Hag.
    { intros i Hne Hi. rewrite list_lookup_insert_ne by done.
      by rewrite lookup_app_l. }
    assert (<[s:=DirectoryItem (ftitle f) (flevel f) (cs ++ [length h])]>
              (h ++ [item]) !! s =
            Some (DirectoryItem (ftitle f) (flevel f) (cs ++ [length h])))
      as Hnew.
    { rewrite list_lookup_insert_eq; [done|]. rewrite length_app. lia. }
    split.
    + intros d Hd. unfold level_of. destruct (decide (d = s)) as [->|Hne].
      * by rewrite Hnew, Hs.
      * by rewrite Hag.
    + split; [done|]. by exists (ftitle f), (flevel f), cs.
Qed.

Lemma heading_effect st text lv :
  reachable st ->
  exists st',
    heading text lv st = inr st' /\
    let fresh := length (heap st) in
    let stk := List.filter (shallower (heap st) lv) (directoryStack st) in
    directoryStack st' = stk ++ [fresh] /\
    length (heap st') = S fresh /\
    heap st' !! fresh = Some (DirectoryItem text lv []) /\
    (forall d, d < fresh -> level_of (heap st') d = level_of (heap st) d) /\
    match stack_top stk with
    | Some p =>
        bookmarks st' = bookmarks st /\
        exists t l cs,
          heap st !! p = Some (DirectoryItem t l cs) /\
          heap st' !! p = Some (DirectoryItem t l (cs ++ [fresh])) /\
          forall i, i <> p -> i < fresh -> heap st' !! i = heap st !! i
    | None =>
        bookmarks st' = bookmarks st ++ [fresh] /\
        heap st' = heap st ++ [DirectoryItem text lv []]
    end.
Proof.
  intros Hst. destruct (reachable_zwf st Hst) as (h0 & z & HI & [_ Hz]).
  destruct (pop_while_sim h0 lv _ st z (le_n _) HI)
    as (st1 & Hpop & HI1 & _ & _).
  assert (st1 = mkClosure (heap st) (bookmarks st)
                  (List.filter (shallower (heap st) lv) (directoryStack st)))
    as Hst1.
  { destruct HI as [_ (tstack & Hstack & Hc)].
    destruct st as [h bm stack]; simpl in *. subst stack.
    rewrite (pop_while_filter h bm lv tstack (zopen z)) in Hpop;
      [congruence|by eapply chain_levels|done]. }
  destruct (attach_fresh_effect h0 st1 _ (DirectoryItem text lv []) HI1)
    as (st2 & Hrun & Hstack2 & Hlen & Hnew & Hlev & Heff).
  rewrite heading_alt, Hpop. simpl. rewrite Hrun. simpl.
  eexists. split; [done|]. subst st1. simpl in *.
  split; [by rewrite Hstack2|]. done.
Qed.

Lemma zrun_root_links links :
  forall roots,
  zrun (map link_call links) (mkZipper roots []) =
  mkZipper (roots ++ map link_node links) [].
Proof.
  induction links as [|[[href title] text] links IH]; intros; simpl.
  - by rewrite app_nil_r.
  - unfold zlink, zattach; simpl. rewrite IH. by rewrite <- app_assoc.
Qed.

Lemma run_links links :
  forall (h : Heap) bm,
  run_calls (map link_call links) (mkClosure h bm []) =
  inr (mkClosure (h ++ map link_item links)
         (bm ++ seq (length h) (length links)) []).
Proof.
  induction links as [|[[href title] text] links IH]; intros h bm; simpl.
  - by rewrite !app_nil_r.
  - unfold link; simpl. rewrite IH, length_app. simpl.
    rewrite <- !app_assoc. simpl. by rewrite Nat.add_1_r.
Qed.

(** C5.  A link call allocates one [BookmarkItem] and pushes it onto the
    children of the directory on top of the stack, touching nothing else;
    with an empty stack it pushes it onto [bookmarks] instead.  In
    particular, when the calls are links only (no heading yet), the
    returned array holds exactly these links, in call order. *)
Theorem link_attaches_to_innermost :
  (forall st href title text,
     reachable st ->
     exists st',
       link href title text st = inr st' /\
       let fresh := length (heap st) in
       directoryStack st' = directoryStack st /\
       heap st' !! fresh = Some (BookmarkItem text href) /\
       match stack_top (directoryStack st) with
       | Some p =>
           bookmarks st' = bookmarks st /\
           exists t l cs,
             heap st !! p = Some (DirectoryItem t l cs) /\
             heap st' !! p = Some (DirectoryItem t l (cs ++ [fresh])) /\
             forall i, i <> p -> i < fresh -> heap st' !! i = heap st !! i
       | None =>
           bookmarks st' = bookmarks st ++ [fresh] /\
           heap st' = heap st ++ [BookmarkItem text href]
       end) /\
  (forall marked text h0 links,
     marked text = map link_call links ->
     extractBookmarks marked text h0 =
       inr (seq (length h0) (length links), h0 ++ map link_item links) /\
     forest (h0 ++ map link_item links) (seq (length h0) (length links)) =
       Some (map link_node links)).
Proof.
  split.
  - intros st href title text Hst.
    destruct (reachable_zwf st Hst) as (h0 & z & HI & _).
    destruct (attach_fresh_effect h0 st z (BookmarkItem text href) HI)
      as (st' & Hrun & Hstack & _ & Hnew & _ & Heff).
    exists st'. by rewrite link_alt.
  - intros marked text h0 links Hcalls.
    destruct (extractBookmarks_forest marked text h0)
      as (roots & h1 & Hrun & Hforest).
    assert (extractBookmarks marked text h0 =
            inr (seq (length h0) (length links), h0 ++ map link_item links))
      as Hrun'.
    { unfold extractBookmarks. by rewrite Hcalls, run_links. }
    split; [done|]. rewrite Hrun' in Hrun. injection Hrun as <- <-.
    rewrite Hforest, Hcalls. unfold build, zclose_all.
    by rewrite zrun_root_links.
Qed.

Lemma link_attaches_to_innermost_witness :
  (exists st',
     link "u" None "a" (mkClosure [DirectoryItem "T" 2%Z []] [0] [0]) = inr st' /\
     directoryStack st' = [0] /\
     heap st' !! 1 = Some (BookmarkItem "a" "u") /\
     bookmarks st' = [0] /\
     heap st' !! 0 = Some (DirectoryItem "T" 2%Z [1])) /\
  extractBookmarks line_scanner "[a](u)" [] =
    inr ([0], [BookmarkItem "a" "u"]) /\
  forest [BookmarkItem "a" "u"] [0] = Some [Link "a" "u"].
Proof.
  split.
  - destruct (proj1 link_attaches_to_innermost
                (mkClosure [DirectoryItem "T" 2%Z []] [0] [0]) "u" None "a")
      as (st' & Hrun & Hstack & Hnew & Hbm & t & l & cs & Hold & Hp & _).
    + exists [], [CallHeading "T" 2%Z]. reflexivity.
    + exists st'. simpl in *. injection Hold as <- <- <-. done.
  - apply (proj2 link_attaches_to_innermost line_scanner "[a](u)" []
             [("u", None, "a")]).
    reflexivity.
Defined.

Lemma build_two_headings a b l1 l2 :
  (l2 <= l1)%Z ->
  build [CallHeading a l1; CallHeading b l2] =
  [Directory a l1 []; Directory b l2 []].
Proof.
  intros Hle. unfold build. simpl. rewrite zheading_fresh.
  unfold zheading. rewrite zpop_while_turn. simpl.
  apply Z.leb_le in Hle. rewrite Hle.
  by rewrite zpop_while_turn.
Qed.

(** C3.  A heading call leaves on the stack exactly the directories whose
    level is below the new level, whatever their number, and pushes the new
    directory on top of them; the new directory hangs under the innermost
    directory left, or in [bookmarks] when none is left.  In particular a
    heading that follows a deeper one (levels 2 then 1) becomes its root
    sibling. *)
Theorem heading_closes_deeper :
  (forall st text lv,
     reachable st ->
     exists st',
       heading text lv st = inr st' /\
       let fresh := length (heap st) in
       let stk := List.filter (shallower (heap st) lv) (directoryStack st) in
       directoryStack st' = stk ++ [fresh] /\
       heap st' !! fresh = Some (DirectoryItem text lv []) /\
       match stack_top stk with
       | Some p =>
           bookmarks st' = bookmarks st /\
           exists t l cs,
             heap st !! p = Some (DirectoryItem t l cs) /\
             heap st' !! p = Some (DirectoryItem t l (cs ++ [fresh])) /\
             forall i, i <> p -> i < fresh -> heap st' !! i = heap st !! i
       | None =>
           bookmarks st' = bookmarks st ++ [fresh] /\
           heap st' = heap st ++ [DirectoryItem text lv []]
       end) /\
  (forall marked text h0 a b l1 l2,
     (l2 < l1)%Z ->
     marked text = [CallHeading a l1; CallHeading b l2] ->
     exists roots h1,
       extractBookmarks marked text h0 = inr (roots, h1) /\
       forest h1 roots = Some [Directory a l1 []; Directory b l2 []]).
Proof.
  split.
  - intros st text lv Hst.
    destruct (heading_effect st text lv Hst)
      as (st' & Hrun & Hstack & _ & Hnew & _ & Heff).
    by exists st'.
  - intros marked text h0 a b l1 l2 Hlt Hcalls.
    destruct (extractBookmarks_forest marked text h0)
      as (roots & h1 & Hrun & Hforest).
    exists roots, h1. split; [done|].
    rewrite Hforest, Hcalls, build_two_headings; [done|lia].
Qed.

Lemma heading_closes_deeper_witness :
  (exists st',
     heading "D" 2%Z
       (mkClosure [DirectoryItem "A" 1%Z [1]; DirectoryItem "B" 2%Z [2];
                   DirectoryItem "C" 3%Z []] [0] [0; 1; 2]) = inr st' /\
     directoryStack st' = [0; 3] /\
     heap st' !! 3 = Some (DirectoryItem "D" 2%Z []) /\
     heap st' !! 0 = Some (DirectoryItem "A" 1%Z [1; 3])) /\
  (exists roots h1,
     extractBookmarks line_scanner
       (String.concat (String newline EmptyString) ["## a"; "# b"]) [] =
       inr (roots, h1) /\
     forest h1 roots = Some [Directory "a" 2%Z []; Directory "b" 1%Z []]).
Proof.
  split.
  - destruct (proj1 heading_closes_deeper
                (mkClosure [DirectoryItem "A" 1%Z [1]; DirectoryItem "B" 2%Z [2];
                            DirectoryItem "C" 3%Z []] [0] [0; 1; 2]) "D" 2%Z)
      as (st' & Hrun & Hstack & Hnew & Hbm & t & l & cs & Hold & Hp & _).
    + exists [], [CallHeading "A" 1%Z; CallHeading "B" 2%Z; CallHeading "C" 3%Z].
      reflexivity.
    + exists st'. simpl in *. injection Hold as <- <- <-. done.
  - apply (proj2 heading_closes_deeper line_scanner _ [] "a" "b" 2%Z 1%Z).
    + reflexivity.
    + reflexivity.
Defined.

(** C2.  Two heading calls in a row at the same level: the second call pops
    the directory made by the first (the test is [level <= top.level], which
    holds at equal levels) and nothing more, so both directories end up
    next to each other under the same parent directory, or next to each
    other in [bookmarks] when no directory is open below them, and the
    first has no children.  In particular two headings at level 2 alone
    give two root directories. *)
Theorem equal_level_headings_are_siblings :
  (forall st a b lv,
     reachable st ->
     exists st1 st2 stk,
       heading a lv st = inr st1 /\
       heading b lv st1 = inr st2 /\
       let d1 := length (heap st) in
       let d2 := S d1 in
       directoryStack st1 = stk ++ [d1] /\
       directoryStack st2 = stk ++ [d2] /\
       heap st2 !! d1 = Some (DirectoryItem a lv []) /\
       heap st2 !! d2 = Some (DirectoryItem b lv []) /\
       match stack_top stk with
       | Some p =>
           bookmarks st2 = bookmarks st /\
           exists t l cs,
             heap st !! p = Some (DirectoryItem t l cs) /\
             heap st2 !! p = Some (DirectoryItem t l (cs ++ [d1; d2]))
       | None => bookmarks st2 = bookmarks st ++ [d1; d2]
       end) /\
  (forall marked text h0 a b lv,
     marked text = [CallHeading a lv; CallHeading b lv] ->
     exists roots h1,
       extractBookmarks marked text h0 = inr (roots, h1) /\
       forest h1 roots = Some [Directory a lv []; Directory b lv []]).
Proof.
  split.
  - intros st a b lv Hst.
    destruct (heading_effect st a lv Hst)
      as (st1 & Hrun1 & Hstack1 & Hlen1 & Hnew1 & Hlev1 & Heff1).
    assert (reachable st1) as Hst1.
    { by apply (reachable_step st (CallHeading a lv)). }
    destruct (heading_effect st1 b lv Hst1)
      as (st2 & Hrun2 & Hstack2 & Hlen2 & Hnew2 & Hlev2 & Heff2).
    simpl in *. rewrite Hlen1 in *.
    set (stk := List.filter (shallower (heap st) lv) (directoryStack st)) in *.
    assert (Forall (fun d => d < length (heap st) /\
                             shallower (heap st1) lv d = true) stk) as Hstk.
    { eapply Forall_impl; [apply filter_sound|]. simpl. intros d Hd.
      assert (d < length (heap st)) as Hlt.
      { unfold shallower, level_of in Hd.
        destruct (heap st !! d) eqn:E; [|done]. by apply lookup_lt_Some in E. }
      split; [done|]. unfold shallower. by rewrite Hlev1. }
    assert (List.filter (shallower (heap st1) lv) (directoryStack st1) = stk)
      as Hkeep.
    { rewrite Hstack1, filter_snoc.
      unfold shallower at 2, level_of. rewrite Hnew1.
      rewrite Z.ltb_irrefl, app_nil_r. apply filter_all.
      eapply Forall_impl; [exact Hstk|]. by intros d [_ ?]. }
    rewrite Hkeep in *.
    exists st1, st2, stk. repeat (split; [done|]).
    destruct (stack_top stk) as [p|] eqn:Etop.
    + destruct Heff1 as (Hbm1 & t & l & cs & Hp & Hp1 & Hrest1).
      destruct Heff2 as (Hbm2 & t' & l' & cs' & Hp1' & Hp2 & Hrest2).
      rewrite Hp1 in Hp1'. injection Hp1' as <- <- <-.
      assert (p < length (heap st)) as Hplt by by apply lookup_lt_Some in Hp.
      split; [by rewrite Hrest2 by lia|].
      split; [done|]. split; [congruence|].
      exists t, l, cs. split; [done|].
      by rewrite <- app_assoc in Hp2.
    + destruct Heff1 as [Hbm1 Hh1]. destruct Heff2 as [Hbm2 Hh2].
      split; [by rewrite Hh2, lookup_app_l by lia|].
      split; [done|].
      rewrite Hbm2, Hbm1. by rewrite <- app_assoc.
  - intros marked text h0 a b lv Hcalls.
    destruct (extractBookmarks_forest marked text h0)
      as (roots & h1 & Hrun & Hforest).
    exists roots, h1. split; [done|].
    rewrite Hforest, Hcalls, build_two_headings; [done|lia].
Qed.

Lemma equal_level_headings_are_siblings_witness :
  (exists st1 st2,
     heading "x" 2%Z (mkClosure [DirectoryItem "A" 1%Z []] [0] [0]) = inr st1 /\
     heading "y" 2%Z st1 = inr st2 /\
     directoryStack st1 = [0; 1] /\
     directoryStack st2 = [0; 2] /\
     heap st2 !! 1 = Some (DirectoryItem "x" 2%Z []) /\
     heap st2 !! 2 = Some (DirectoryItem "y" 2%Z []) /\
     heap st2 !! 0 = Some (DirectoryItem "A" 1%Z [1; 2])) /\
  (exists roots h1,
     extractBookmarks line_scanner
       (String.concat (String newline EmptyString) ["## a"; "## b"]) [] =
       inr (roots, h1) /\
     forest h1 roots = Some [Directory "a" 2%Z []; Directory "b" 2%Z []]).
Proof.
  split.
  - destruct (proj1 equal_level_headings_are_siblings
                (mkClosure [DirectoryItem "A" 1%Z []] [0] [0]) "x" "y" 2%Z)
      as (st1 & st2 & stk & Hrun1 & Hrun2 & Hs1 & Hs2 & Hd1 & Hd2 & Hpar).
    + exists [], [CallHeading "A" 1%Z]. reflexivity.
    + pose proof Hrun1 as Hst1. vm_compute in Hst1. injection Hst1 as <-.
      simpl in *. symmetry in Hs1.
      apply (app_inj_tail stk [0] 1 1) in Hs1 as [-> _].
      destruct Hpar as (_ & t & l & cs & Hold & Hp).
      injection Hold as <- <- <-.
      eexists _, st2. by split; [exact Hrun1|].
  - apply (proj2 equal_level_headings_are_siblings line_scanner _ [] "a" "b" 2%Z).
    reflexivity.
Defined.

(** ** Refreshing the provider *)

(** C10.  When [readBookmarksFile] returns null, which it does exactly when
    no workspace folder is open or [BOOKMARKS.md] does not exist in the
    first one, [refresh] changes nothing: the stored array and the objects
    behind it stay as they were, and no change event is fired. *)
Theorem refresh_keeps_bookmarks marked path_join env p :
  readBookmarksFile path_join env = inr None ->
  refresh marked path_join env p = inr p /\
  (workspaceFolders env = None \/
   exists d ds,
     workspaceFolders env = Some (d :: ds) /\
     existsSync env (path_join d "BOOKMARKS.md") = false).
Proof.
  intros Hnull. split.
  - unfold refresh. by rewrite Hnull.
  - unfold readBookmarksFile in Hnull.
    destruct (workspaceFolders env) as [[|d ds]|]; simpl in Hnull;
      [done| |by left].
    right. exists d, ds. split; [done|].
    destruct (existsSync env (path_join d "BOOKMARKS.md")); [|done].
    by destruct (readFileSync env (path_join d "BOOKMARKS.md")).
Qed.

Lemma refresh_keeps_bookmarks_witness :
  refresh line_scanner (fun d f => String.append d (String.append "/" f))
    (mkEnv (Some ["/w"]) (fun _ => false) (fun _ => inl TypeError))
    (mkProvider [BookmarkItem "a" "u"] [0] [None]) =
  inr (mkProvider [BookmarkItem "a" "u"] [0] [None]).
Proof.
  apply (refresh_keeps_bookmarks line_scanner
           (fun d f => String.append d (String.append "/" f))
           (mkEnv (Some ["/w"]) (fun _ => false) (fun _ => inl TypeError))).
  reflexivity.
Defined.

(** * Further properties of the builder *)

(** ** Document order is kept *)

Lemma preorder_all_app ns ms :
  preorder_all (ns ++ ms) = preorder_all ns ++ preorder_all ms.
Proof. unfold preorder_all. by rewrite map_app, concat_app. Qed.

Lemma preorder_all_one n : preorder_all [n] = preorder n.
Proof. unfold preorder_all. simpl. by rewrite app_nil_r. Qed.

Lemma zflat_zattach n z : zflat (zattach n z) = zflat z ++ preorder n.
Proof.
  destruct z as [roots [|f fs]]; unfold zattach, zflat; simpl.
  - by rewrite preorder_all_app, preorder_all_one, !app_nil_r.
  - rewrite preorder_all_app, preorder_all_one.
    by rewrite <- !app_assoc.
Qed.

Lemma zflat_zpop z : zflat (zpop z) = zflat z.
Proof.
  destruct z as [roots [|f fs]]; unfold zpop; simpl; [done|].
  rewrite zflat_zattach. unfold zflat; simpl. by rewrite <- app_assoc.
Qed.

Lemma zflat_zpop_while lv n :
  forall z, length (zopen z) <= n -> zflat (zpop_while lv z) = zflat z.
Proof.
  induction n as [|n IH]; intros [roots frames] Hn;
    rewrite zpop_while_turn; simpl in *;
    destruct frames as [|f frames]; try done; try (simpl in Hn; lia).
  destruct (lv <=? flevel f)%Z; [|done].
  rewrite IH; [apply zflat_zpop|].
  erewrite zpop_length; [|done]. simpl in Hn. lia.
Qed.

Lemma zflat_zstep z c : zflat (zstep z c) = zflat z ++ [entry_of c].
Proof.
  destruct c as [text lv|href title text]; simpl.
  - unfold zheading, zflat; simpl.
    pose proof (zflat_zpop_while lv _ z (le_n _)) as Hflat.
    unfold zflat in Hflat. unfold preorder_all at 2. simpl.
    by rewrite app_assoc, Hflat.
  - unfold zlink. by rewrite zflat_zattach.
Qed.

Lemma zflat_zrun calls :
  forall z, zflat (zrun calls z) = zflat z ++ map entry_of calls.
Proof.
  induction calls as [|c calls IH]; intros z; simpl.
  - by rewrite app_nil_r.
  - rewrite IH, zflat_zstep. by rewrite <- app_assoc.
Qed.

Lemma iter_zpop_flat n : forall z, zflat (Nat.iter n zpop z) = zflat z.
Proof.
  induction n as [|n IH]; intros z; simpl; [done|].
  by rewrite zflat_zpop.
Qed.

Lemma iter_zpop_closed n :
  forall z, length (zopen z) = n -> zopen (Nat.iter n zpop z) = [].
Proof.
  induction n as [|n IH]; intros [roots frames] Hn; simpl in Hn.
  - by destruct frames.
  - destruct frames as [|f frames]; [done|].
    rewrite Nat.iter_succ_r. apply IH.
    erewrite zpop_length; [|done]. simpl in Hn. lia.
Qed.

Lemma build_preorder calls : preorder_all (build calls) = map entry_of calls.
Proof.
  unfold build, zclose_all.
  set (z := zrun calls (mkZipper [] [])).
  pose proof (iter_zpop_flat (length (zopen z)) z) as Hflat.
  unfold zflat at 1 in Hflat.
  rewrite (iter_zpop_closed _ z eq_refl) in Hflat. simpl in Hflat.
  rewrite app_nil_r in Hflat. rewrite Hflat. unfold z.
  by rewrite zflat_zrun.
Qed.

(** X1.  Reading the returned tree parent first, children left to right,
    gives back the renderer calls in the order they were made: every
    heading with its text and level, every link with its href and text;
    nothing is dropped, repeated or moved. *)
Theorem extractBookmarks_preorder marked text h0 :
  exists roots h1 ns,
    extractBookmarks marked text h0 = inr (roots, h1) /\
    forest h1 roots = Some ns /\
    preorder_all ns = map entry_of (marked text).
Proof.
  destruct (extractBookmarks_forest marked text h0)
    as (roots & h1 & Hrun & Hforest).
  exists roots, h1, (build (marked text)).
  split; [done|]. split; [done|]. apply build_preorder.
Qed.

(** ** Only fresh objects *)

Lemma chain_bm_base h base bm roots tstack :
  forall frames o lim,
  Forall (le base) o ->
  chain h base bm roots o lim tstack frames ->
  Forall (le base) bm.
Proof.
  induction tstack as [|s tstack IH]; intros [|f frames] o lim Ho Hc;
    simpl in Hc; try done.
  - destruct Hc as (rcs & -> & Hrcs & _). apply Forall_app. by split.
  - destruct Hc as [(Hb & _) Hc]. eapply IH; [|done].
    by repeat constructor.
Qed.

Lemma dispatch_alloc st c :
  reachable st ->
  exists st', dispatch c st = inr st' /\
              length (heap st') = S (length (heap st)).
Proof.
  intros Hst. destruct c as [text lv|href title text]; simpl.
  - destruct (heading_effect st text lv Hst) as (st' & Hrun & _ & Hlen & _).
    by exists st'.
  - destruct (reachable_zwf st Hst) as (h0 & z & HI & _).
    destruct (attach_fresh_effect h0 st z (BookmarkItem text href) HI)
      as (st' & Hrun & _ & Hlen & _).
    exists st'. by rewrite link_alt.
Qed.

Lemma run_calls_alloc calls :
  forall st,
  reachable st ->
  exists st', run_calls calls st = inr st' /\
              length (heap st') = length (heap st) + length calls.
Proof.
  induction calls as [|c calls IH]; intros st Hst; simpl.
  - exists st. split; [done|lia].
  - destruct (dispatch_alloc st c Hst) as (st1 & Hstep & Hlen).
    rewrite Hstep. simpl.
    destruct (IH st1 (reachable_step _ _ _ Hst Hstep)) as (st' & Hrun & Hlen').
    exists st'. split; [done|lia].
Qed.

Lemma extractBookmarks_fresh marked text (h0 : Heap) :
  exists roots ext,
    extractBookmarks marked text h0 = inr (roots, h0 ++ ext) /\
    length ext = length (marked text) /\
    Forall (fun r => length h0 <= r < length h0 + length ext) roots.
Proof.
  destruct (run_calls_sim h0 (marked text) _ _ (Inv_init h0))
    as (st & Hrun & [[ext Hh] (tstack & Hst & Hc)]).
  destruct (run_calls_alloc (marked text) (mkClosure h0 [] []))
    as (st' & Hrun' & Hlen); [by exists h0, []|].
  rewrite Hrun in Hrun'. injection Hrun' as <-. simpl in Hlen.
  exists (bookmarks st), ext. unfold extractBookmarks. rewrite Hrun. simpl.
  split; [by rewrite Hh|].
  assert (length ext = length (marked text)) as Hext.
  { rewrite Hh, length_app in Hlen. lia. }
  split; [done|].
  pose proof (chain_bm_base _ _ _ _ _ _ _ _ (Forall_nil_2 _) Hc) as Hbase.
  pose proof (Inv_close_all h0 _ _ _ _ _ eq_refl Hc) as Hrep.
  apply Forall_forall. intros r Hr. split.
  - rewrite Forall_forall in Hbase. by apply Hbase.
  - apply list_elem_of_lookup in Hr as [i Hi].
    destruct (Forall2_lookup_l _ _ _ _ _ Hrep Hi) as (n & _ & Hn).
    apply repr_lt in Hn. rewrite Hh, length_app in Hn. lia.
Qed.

(** X2.  A call leaves every object that existed before it as it was and
    allocates exactly one object per renderer call; the array it returns
    holds references to objects of this call only. *)
Theorem extractBookmarks_allocates marked text (h0 : Heap) :
  exists roots ext,
    extractBookmarks marked text h0 = inr (roots, h0 ++ ext) /\
    length ext = length (marked text) /\
    Forall (fun r => length h0 <= r < length h0 + length ext) roots.
Proof. apply extractBookmarks_fresh. Qed.

(** ** Ever deeper headings *)

Definition frame_of (x : string * Z) : Frame := mkFrame (fst x) (snd x) [].

Lemma zpop_while_stop lv z :
  match zopen z with
  | [] => True
  | f :: _ => (flevel f < lv)%Z
  end ->
  zpop_while lv z = z.
Proof.
  intros Htop. rewrite zpop_while_turn.
  destruct (zopen z) as [|f fs]; [done|].
  apply Z.leb_gt in Htop. by rewrite Htop.
Qed.

Lemma zrun_headings_ascending hs :
  forall z,
  Sorted Z.lt (map snd hs) ->
  match zopen z, hs with
  | f :: _, x :: _ => (flevel f < snd x)%Z
  | _, _ => True
  end ->
  zrun (map heading_call hs) z =
  mkZipper (zroots z) (rev (map frame_of hs) ++ zopen z).
Proof.
  induction hs as [|x hs IH]; intros z Hsorted Htop; simpl.
  - by destruct z.
  - apply Sorted_inv in Hsorted as [Hsorted Hhd].
    unfold zheading. rewrite zpop_while_stop by by destruct (zopen z).
    rewrite IH; simpl; [by rewrite <- app_assoc|done|].
    destruct hs as [|y hs]; [done|]. simpl in Hhd. by inversion Hhd.
Qed.

Lemma fold_frames_snoc fs g f :
  fold_frames (fs ++ [g; f]) =
  fold_frames (fs ++ [mkFrame (ftitle g) (flevel g) (fdone g ++ [close f])]).
Proof.
  induction fs as [|e fs IH]; simpl.
  - by rewrite !app_nil_r.
  - by rewrite IH.
Qed.

(** Closing everything that is open nests each open directory, with what
    it holds so far, as the last child of the one below it. *)
Lemma iter_zpop_fold n :
  forall fs roots,
  length fs = n ->
  Nat.iter n zpop (mkZipper roots (rev fs)) =
  mkZipper (roots ++ fold_frames fs) [].
Proof.
  induction n as [|n IH]; intros fs roots Hn.
  - destruct fs; [|done]. simpl. by rewrite app_nil_r.
  - destruct fs as [|f fs _] using rev_ind; [done|].
    rewrite length_app in Hn. simpl in Hn.
    rewrite Nat.iter_succ_r, rev_unit. unfold zpop; simpl.
    destruct fs as [|g fs _] using rev_ind.
    + destruct n; [|simpl in Hn; lia]. simpl. unfold zattach; simpl.
      by rewrite app_nil_r.
    + rewrite rev_unit. unfold zattach; simpl.
      rewrite <- (rev_unit fs), IH.
      * rewrite <- (app_assoc fs [g] [f]). simpl.
        by rewrite fold_frames_snoc.
      * rewrite !length_app in *. simpl in *. lia.
Qed.

Lemma fold_frames_nest hs : fold_frames (map frame_of hs) = nest hs.
Proof. induction hs as [|x hs IH]; simpl; [done|]. by rewrite IH. Qed.

Lemma build_headings_ascending hs :
  Sorted Z.lt (map snd hs) -> build (map heading_call hs) = nest hs.
Proof.
  intros Hsorted. unfold build, zclose_all.
  rewrite zrun_headings_ascending by (done || by destruct hs).
  simpl. rewrite app_nil_r, length_rev, iter_zpop_fold by done.
  simpl. apply fold_frames_nest.
Qed.

(** X3.  When the calls are headings only and each is deeper than the one
    before, every directory is the only child of the previous one: the
    result is a single chain, as deep as there are headings. *)
Theorem extractBookmarks_ascending_headings marked text h0 hs :
  marked text = map heading_call hs ->
  Sorted Z.lt (map snd hs) ->
  exists roots h1,
    extractBookmarks marked text h0 = inr (roots, h1) /\
    forest h1 roots = Some (nest hs).
Proof.
  intros Hcalls Hsorted.
  destruct (extractBookmarks_forest marked text h0)
    as (roots & h1 & Hrun & Hforest).
  exists roots, h1. split; [done|].
  by rewrite Hforest, Hcalls, build_headings_ascending.
Qed.

Lemma extractBookmarks_ascending_headings_witness :
  exists roots h1,
    extractBookmarks line_scanner
      (String.concat (String newline EmptyString) ["# a"; "## b"; "### c"]) [] =
      inr (roots, h1) /\
    forest h1 roots =
      Some [Directory "a" 1%Z [Directory "b" 2%Z [Directory "c" 3%Z []]]].
Proof.
  apply (extractBookmarks_ascending_headings line_scanner _ []
           [("a", 1%Z); ("b", 2%Z); ("c", 3%Z)]).
  - reflexivity.
  - repeat constructor.
Defined.

(** ** What the stack holds between two calls *)

Lemma chain_bottom h base bm roots A d :
  forall frames o lim,
  chain h base bm roots o lim (A ++ [d]) frames ->
  exists bm', bm = bm' ++ [d].
Proof.
  induction A as [|a A IH]; intros [|f frames] o lim Hc; simpl in Hc;
    try done.
  - destruct Hc as [_ Hc]. destruct frames; simpl in Hc; [|done].
    destruct Hc as (rcs & -> & _). by exists rcs.
  - destruct Hc as [_ Hc]. by eapply IH.
Qed.

Lemma chain_adjacent h base bm roots A d' d B :
  forall frames o lim,
  frames_ok frames ->
  chain h base bm roots o lim (A ++ d' :: d :: B) frames ->
  exists t lv cs t' lv' cs',
    h !! d = Some (DirectoryItem t lv (cs ++ [d'])) /\
    h !! d' = Some (DirectoryItem t' lv' cs') /\
    (lv < lv')%Z.
Proof.
  induction A as [|a A IH]; intros [|f' frames] o lim Hok Hc; simpl in Hc;
    try done.
  - destruct frames as [|f frames]; [by destruct Hc|].
    destruct Hc as [(_ & _ & cs' & Hd' & _) [(_ & _ & cs & Hd & _) _]].
    destruct Hok as (_ & Hlt & _).
    by exists (ftitle f), (flevel f), cs, (ftitle f'), (flevel f'), (cs' ++ o).
  - destruct Hc as [_ Hc]. destruct Hok as (_ & _ & Hok). by eapply IH.
Qed.

Lemma chain_dirs h base bm roots tstack :
  forall frames o lim,
  chain h base bm roots o lim tstack frames ->
  Forall (fun s => exists t lv cs, h !! s = Some (DirectoryItem t lv cs))
    tstack.
Proof.
  induction tstack as [|s tstack IH]; intros [|f frames] o lim Hc;
    simpl in Hc; try done.
  destruct Hc as [(_ & _ & cs & Hs & _) Hc]. constructor; [|by eapply IH].
  by exists (ftitle f), (flevel f), (cs ++ o).
Qed.

(** X4.  Between two calls the stack is the path of directories that are
    still open: its first entry is the last element of [bookmarks], every
    further entry is the last child of the entry before it and has a
    strictly greater level, and every entry is a directory of the store. *)
Theorem stack_is_open_path st :
  reachable st ->
  (forall d, d ∈ directoryStack st ->
     exists t lv cs, heap st !! d = Some (DirectoryItem t lv cs)) /\
  (forall d above,
     directoryStack st = d :: above ->
     exists bm, bookmarks st = bm ++ [d]) /\
  (forall below d d' above,
     directoryStack st = below ++ d :: d' :: above ->
     exists t lv cs t' lv' cs',
       heap st !! d = Some (DirectoryItem t lv (cs ++ [d'])) /\
       heap st !! d' = Some (DirectoryItem t' lv' cs') /\
       (lv < lv')%Z).
Proof.
  intros Hst.
  destruct (reachable_zwf st Hst) as (h0 & z & [_ (tstack & Hstack & Hc)] & [_ Hok]).
  split; [|split].
  - intros d Hd. rewrite Hstack in Hd.
    apply list_elem_of_In, in_rev, list_elem_of_In in Hd.
    pose proof (chain_dirs _ _ _ _ _ _ _ _ Hc) as Hdirs.
    rewrite Forall_forall in Hdirs. by apply Hdirs.
  - intros d above Habove.
    assert (tstack = rev above ++ [d]) as ->.
    { rewrite <- (rev_involutive tstack), <- Hstack, Habove. done. }
    by eapply chain_bottom.
  - intros below d d' above Hsplit.
    assert (tstack = rev above ++ d' :: d :: rev below) as ->.
    { rewrite <- (rev_involutive tstack), <- Hstack, Hsplit.
      rewrite rev_app_distr. simpl. by rewrite <- !app_assoc. }
    by eapply chain_adjacent.
Qed.

Lemma stack_is_open_path_witness :
  exists t lv cs t' lv' cs',
    [DirectoryItem "A" 1%Z [1]; DirectoryItem "B" 2%Z []] !! 0 =
      Some (DirectoryItem t lv (cs ++ [1])) /\
    [DirectoryItem "A" 1%Z [1]; DirectoryItem "B" 2%Z []] !! 1 =
      Some (DirectoryItem t' lv' cs') /\
    (lv < lv')%Z.
Proof.
  apply (proj2 (proj2 (stack_is_open_path
           (mkClosure [DirectoryItem "A" 1%Z [1]; DirectoryItem "B" 2%Z []]
              [0] [0; 1])
           (ex_intro _ [] (ex_intro _ [CallHeading "A" 1%Z; CallHeading "B" 2%Z]
              eq_refl)))) [] 0 1 []).
  reflexivity.
Defined.

(** * The provider and the commands *)

(** ** Reading trees in a store that has grown *)

Lemma reify_mono (h : Heap) fuel :
  forall fuel' r n,
  fuel <= fuel' -> reify fuel h r = Some n -> reify fuel' h r = Some n.
Proof.
  induction fuel as [|fuel IH]; intros fuel' r n Hle; simpl; [done|].
  destruct fuel' as [|fuel']; [lia|]. simpl.
  destruct (h !! r) as [[t lv cs|t l]|]; try done.
  destruct (mapM (reify fuel h) cs) as [ns|] eqn:E; simpl; [|done].
  intros [= <-].
  assert (mapM (reify fuel' h) cs = Some ns) as ->; [|done].
  apply mapM_Some. apply mapM_Some in E.
  eapply Forall2_impl; [exact E|]. intros c m. apply IH. lia.
Qed.

Lemma reify_app (h ext : Heap) fuel :
  forall r n, reify fuel h r = Some n -> reify fuel (h ++ ext) r = Some n.
Proof.
  induction fuel as [|fuel IH]; intros r n; simpl; [done|].
  destruct (h !! r) as [item|] eqn:Hr; [|done].
  rewrite (lookup_app_l_Some _ _ _ _ Hr).
  destruct item as [t lv cs|t l]; [|done].
  destruct (mapM (reify fuel h) cs) as [ns|] eqn:E; simpl; [|done].
  intros [= <-].
  assert (mapM (reify fuel (h ++ ext)) cs = Some ns) as ->; [|done].
  apply mapM_Some. apply mapM_Some in E.
  eapply Forall2_impl; [exact E|]. intros c m. apply IH.
Qed.

(** Objects are only ever added to the store, so an array that read back
    as a tree keeps reading back as that tree. *)
Lemma forest_app (h ext : Heap) roots ns :
  forest h roots = Some ns -> forest (h ++ ext) roots = Some ns.
Proof.
  unfold forest. intros E. apply mapM_Some. apply mapM_Some in E.
  eapply Forall2_impl; [exact E|]. intros c m Hc. simpl in *.
  apply (reify_mono _ (length h)); [rewrite length_app; lia|].
  by apply reify_app.
Qed.

Lemma tree_of_build marked text :
  tree_of marked text = Some (build (marked text)).
Proof.
  unfold tree_of.
  destruct (extractBookmarks_forest marked text [])
    as (roots & h1 & -> & Hforest).
  done.
Qed.

Lemma extractBookmarks_tree_of marked text h0 :
  exists roots ext ns,
    extractBookmarks marked text h0 = inr (roots, h0 ++ ext) /\
    tree_of marked text = Some ns /\
    forest (h0 ++ ext) roots = Some ns.
Proof.
  destruct (extractBookmarks_build marked text h0)
    as (roots & h1 & Hrun & [ext ->] & Hrep).
  exists roots, ext, (build (marked text)). split; [done|].
  split; [apply tree_of_build|]. by apply repr_forest.
Qed.

(** ** [refresh] *)

Lemma truthy_nonempty text : truthy text = true <-> text <> EmptyString.
Proof.
  unfold truthy. rewrite negb_true_iff. apply String.eqb_neq.
Qed.

Lemma refresh_content marked path_join env p text :
  readBookmarksFile path_join env = inr (Some text) ->
  text <> EmptyString ->
  exists roots ext ns,
    refresh marked path_join env p =
      inr (mkProvider (store p ++ ext) roots (fired p ++ [None])) /\
    tree_of marked text = Some ns /\
    forest (store p ++ ext) roots = Some ns /\
    length ext = length (marked text) /\
    forall old T,
      forest (store p) old = Some T -> forest (store p ++ ext) old = Some T.
Proof.
  intros Hread Hne. apply truthy_nonempty in Hne.
  destruct (extractBookmarks_tree_of marked text (store p))
    as (roots & ext & ns & Hrun & Htree & Hforest).
  destruct (extractBookmarks_fresh marked text (store p))
    as (roots' & ext' & Hrun' & Hlen & _).
  rewrite Hrun in Hrun'. injection Hrun' as <- Hext.
  apply app_inv_head in Hext as <-.
  exists roots, ext, ns. unfold refresh. rewrite Hread. simpl.
  rewrite Hne, Hrun. simpl. repeat (split; [done|]).
  intros old T. apply forest_app.
Qed.

(** X5.  When the file is read and is not empty, [refresh] stores a new
    array that reads back as the tree of the text, fires exactly one change
    event with no payload, and allocates one object per renderer call after
    the objects that were there; arrays handed out earlier still read back
    as the trees they were (no earlier tree is touched). *)
Theorem refresh_replaces marked path_join env p text :
  readBookmarksFile path_join env = inr (Some text) ->
  text <> EmptyString ->
  exists roots ext ns,
    refresh marked path_join env p =
      inr (mkProvider (store p ++ ext) roots (fired p ++ [None])) /\
    tree_of marked text = Some ns /\
    forest (store p ++ ext) roots = Some ns /\
    length ext = length (marked text) /\
    forall old T,
      forest (store p) old = Some T -> forest (store p ++ ext) old = Some T.
Proof. apply refresh_content. Qed.

Lemma refresh_replaces_witness :
  exists roots ext ns,
    refresh line_scanner (fun d f => String.append d (String.append "/" f))
      (mkEnv (Some ["/w"]) (fun _ => true) (fun _ => inr short_doc))
      (mkProvider [BookmarkItem "old" "o"] [0] []) =
      inr (mkProvider ([BookmarkItem "old" "o"] ++ ext) roots ([] ++ [None])) /\
    tree_of line_scanner short_doc = Some ns /\
    forest ([BookmarkItem "old" "o"] ++ ext) roots = Some ns /\
    length ext = 3.
Proof.
  destruct (refresh_replaces line_scanner
              (fun d f => String.append d (String.append "/" f))
              (mkEnv (Some ["/w"]) (fun _ => true) (fun _ => inr short_doc))
              (mkProvider [BookmarkItem "old" "o"] [0] []) short_doc)
    as (roots & ext & ns & Hrun & Htree & Hforest & Hlen & _).
  - reflexivity.
  - discriminate.
  - by exists roots, ext, ns.
Defined.

(** X6.  [refresh] fails exactly when reading the file fails, with the same
    exception; and when it returns it has either changed nothing at all or
    fired one event and extended the store. *)
Theorem refresh_outcome marked path_join env p :
  (forall e,
     refresh marked path_join env p = inl e <->
     readBookmarksFile path_join env = inl e) /\
  (forall p',
     refresh marked path_join env p = inr p' ->
     p' = p \/
     (fired p' = fired p ++ [None] /\ exists ext, store p' = store p ++ ext)).
Proof.
  unfold refresh.
  destruct (readBookmarksFile path_join env) as [e0|[text|]] eqn:Hread; simpl.
  - split; [naive_solver|]. intros p' Hp'. discriminate.
  - destruct (truthy text) eqn:Ht.
    + destruct (extractBookmarks_build marked text (store p))
        as (roots & h1 & Hrun & [ext ->] & _).
      rewrite Hrun. simpl. split; [naive_solver|].
      intros p' [= <-]. right. simpl. split; [done|]. by exists ext.
    + split; [naive_solver|]. intros p' [= <-]. by left.
  - split; [naive_solver|]. intros p' [= <-]. by left.
Qed.

Lemma refresh_outcome_witness :
  refresh line_scanner (fun d f => String.append d (String.append "/" f))
    (mkEnv (Some ["/w"]) (fun _ => true) (fun _ => inl TypeError))
    (mkProvider [] [] []) = inl TypeError.
Proof.
  apply (proj1 (refresh_outcome line_scanner
                  (fun d f => String.append d (String.append "/" f))
                  (mkEnv (Some ["/w"]) (fun _ => true) (fun _ => inl TypeError))
                  (mkProvider [] [] []))).
  reflexivity.
Defined.

(** ** [getChildren] *)

(** X7.  A file that exists but is empty is treated like a missing one:
    asked for the roots, [getChildren] answers with the single
    [NoBookmarksItem] and [refresh] does nothing; in both cases the stored
    array stays as it was. *)
Theorem empty_file_is_no_file marked path_join env p :
  readBookmarksFile path_join env = inr None \/
  readBookmarksFile path_join env = inr (Some EmptyString) ->
  getChildren marked path_join env None p = inr ([NoBookmarksItem], p) /\
  refresh marked path_join env p = inr p.
Proof.
  unfold getChildren, refresh. by intros [-> | ->].
Qed.

Lemma empty_file_is_no_file_witness :
  getChildren line_scanner (fun d f => String.append d (String.append "/" f))
    (mkEnv (Some ["/w"]) (fun _ => true) (fun _ => inr EmptyString)) None
    (mkProvider [BookmarkItem "a" "u"] [0] []) =
    inr ([NoBookmarksItem], mkProvider [BookmarkItem "a" "u"] [0] []) /\
  refresh line_scanner (fun d f => String.append d (String.append "/" f))
    (mkEnv (Some ["/w"]) (fun _ => true) (fun _ => inr EmptyString))
    (mkProvider [BookmarkItem "a" "u"] [0] []) =
    inr (mkProvider [BookmarkItem "a" "u"] [0] []).
Proof.
  apply (empty_file_is_no_file line_scanner
           (fun d f => String.append d (String.append "/" f))
           (mkEnv (Some ["/w"]) (fun _ => true) (fun _ => inr EmptyString))).
  right. reflexivity.
Defined.

(** X8.  After a [refresh] that stored a tree, asking for the roots with
    the host unchanged builds the tree anew: the items handed to the view
    read back as the tree [refresh] stored, they replace the stored array,
    no event is fired, and the array [refresh] stored keeps reading back as
    the same tree. *)
Theorem getChildren_after_refresh marked path_join env p text :
  readBookmarksFile path_join env = inr (Some text) ->
  text <> EmptyString ->
  exists p1 p2 ns,
    refresh marked path_join env p = inr p1 /\
    getChildren marked path_join env None p1 =
      inr (map StoredItem (this_bookmarks p2), p2) /\
    fired p2 = fired p1 /\
    forest (store p1) (this_bookmarks p1) = Some ns /\
    forest (store p2) (this_bookmarks p2) = Some ns /\
    forest (store p2) (this_bookmarks p1) = Some ns.
Proof.
  intros Hread Hne.
  destruct (refresh_content marked path_join env p text Hread Hne)
    as (roots & ext & ns & Hrefresh & Htree & Hforest & _).
  apply truthy_nonempty in Hne.
  set (p1 := mkProvider (store p ++ ext) roots (fired p ++ [None])) in *.
  destruct (extractBookmarks_tree_of marked text (store p1))
    as (roots2 & ext2 & ns2 & Hrun2 & Htree2 & Hforest2).
  rewrite Htree in Htree2. injection Htree2 as <-.
  exists p1, (mkProvider (store p1 ++ ext2) roots2 (fired p1)), ns.
  split; [done|]. unfold getChildren. rewrite Hread. simpl.
  rewrite Hne. simpl in Hrun2. rewrite Hrun2. simpl.
  repeat (split; [done|]).
  by apply forest_app.
Qed.

Lemma getChildren_after_refresh_witness :
  exists p1 p2 ns,
    refresh line_scanner (fun d f => String.append d (String.append "/" f))
      (mkEnv (Some ["/w"]) (fun _ => true) (fun _ => inr short_doc))
      (mkProvider [] [] []) = inr p1 /\
    getChildren line_scanner (fun d f => String.append d (String.append "/" f))
      (mkEnv (Some ["/w"]) (fun _ => true) (fun _ => inr short_doc)) None p1 =
      inr (map StoredItem (this_bookmarks p2), p2) /\
    fired p2 = fired p1 /\
    forest (store p1) (this_bookmarks p1) = Some ns /\
    forest (store p2) (this_bookmarks p2) = Some ns /\
    forest (store p2) (this_bookmarks p1) = Some ns.
Proof.
  apply (getChildren_after_refresh line_scanner
           (fun d f => String.append d (String.append "/" f))
           (mkEnv (Some ["/w"]) (fun _ => true) (fun _ => inr short_doc))
           (mkProvider [] [] []) short_doc).
  - reflexivity.
  - discriminate.
Defined.

(** X9.  Asked for the children of an element, [getChildren] reads no file
    and changes nothing; for an element that reads back as a node of the
    tree it answers with items that read back as exactly the children of
    that node, in order (none for a link), and for the [NoBookmarksItem]
    with none. *)
Theorem getChildren_element marked path_join env p :
  (forall r n,
     reify (length (store p)) (store p) r = Some n ->
     exists cs,
       getChildren marked path_join env (Some (StoredItem r)) p =
         inr (map StoredItem cs, p) /\
       forest (store p) cs = Some (node_children n)) /\
  getChildren marked path_join env (Some NoBookmarksItem) p = inr ([], p).
Proof.
  split; [|done]. intros r n Hn. unfold getChildren.
  destruct (length (store p)) as [|fuel] eqn:Hlen; [done|]. simpl in Hn.
  destruct (store p !! r) as [[t lv cs|t l]|]; [| |done].
  - destruct (mapM (reify fuel (store p)) cs) as [ns|] eqn:E; [|done].
    injection Hn as <-. exists cs. split; [done|]. simpl.
    unfold forest. apply mapM_Some. apply mapM_Some in E.
    eapply Forall2_impl; [exact E|]. intros c m. simpl.
    apply reify_mono. lia.
  - injection Hn as <-. by exists [].
Qed.

Lemma getChildren_element_witness :
  exists cs,
    getChildren line_scanner (fun d f => String.append d (String.append "/" f))
      (mkEnv None (fun _ => false) (fun _ => inl TypeError))
      (Some (StoredItem 0))
      (mkProvider [DirectoryItem "T" 2%Z [1]; BookmarkItem "a" "u"] [0] []) =
      inr (map StoredItem cs,
           mkProvider [DirectoryItem "T" 2%Z [1]; BookmarkItem "a" "u"] [0] []) /\
    forest [DirectoryItem "T" 2%Z [1]; BookmarkItem "a" "u"] cs =
      Some [Link "a" "u"].
Proof.
  apply (proj1 (getChildren_element line_scanner
                  (fun d f => String.append d (String.append "/" f))
                  (mkEnv None (fun _ => false) (fun _ => inl TypeError))
                  (mkProvider [DirectoryItem "T" 2%Z [1]; BookmarkItem "a" "u"]
                     [0] [])) 0 (Directory "T" 2%Z [Link "a" "u"])).
  reflexivity.
Defined.

(** ** Polling *)

Lemma reading_Some path_join env text :
  reading path_join env = Some text ->
  readBookmarksFile path_join env = inr (Some text) /\ text <> EmptyString.
Proof.
  unfold reading.
  destruct (readBookmarksFile path_join env) as [e|[t|]]; try done.
  destruct (truthy t) eqn:Ht; [|done]. intros [= <-].
  split; [done|]. by apply truthy_nonempty.
Qed.

Lemma refresh_reading_None marked path_join env p p' :
  reading path_join env = None ->
  refresh marked path_join env p = inr p' -> p' = p.
Proof.
  unfold reading, refresh.
  destruct (readBookmarksFile path_join env) as [e|[t|]]; simpl; try done.
  - destruct (truthy t); [done|]. by intros _ [= <-].
  - by intros _ [= <-].
Qed.

(** X10.  However often the interval has called [refresh], and whatever the
    host was at each call (file missing, empty, unreadable, changed), the
    provider holds the tree of the latest reading that was not empty, or
    still what it held at the start when there was none; and it has fired
    one event per such reading. *)
Theorem poll_latest marked path_join envs :
  forall p,
  match latest path_join envs with
  | Some text =>
      exists ns,
        tree_of marked text = Some ns /\
        forest (store (poll marked path_join envs p))
          (this_bookmarks (poll marked path_join envs p)) = Some ns
  | None => poll marked path_join envs p = p
  end /\
  fired (poll marked path_join envs p) =
    fired p ++ replicate (length (omap (reading path_join) envs)) None.
Proof.
  induction envs as [|env envs IH]; intros p; simpl.
  - split; [done|]. by rewrite app_nil_r.
  - destruct (reading path_join env) as [text|] eqn:Hreading.
    + apply reading_Some in Hreading as [Hread Hne].
      destruct (refresh_content marked path_join env p text Hread Hne)
        as (roots & ext & ns & -> & Htree & Hforest & _).
      destruct (IH (mkProvider (store p ++ ext) roots (fired p ++ [None])))
        as [Htree' Hfired].
      split.
      * destruct (latest path_join envs); [done|]. rewrite Htree'.
        by exists ns.
      * rewrite Hfired. simpl. by rewrite <- app_assoc.
    + destruct (refresh marked path_join env p) as [e|p1] eqn:Hrefresh.
      * destruct (IH p) as [Htree Hfired]. split; [|done].
        by destruct (latest path_join envs).
      * apply (refresh_reading_None _ _ _ _ _ Hreading) in Hrefresh as ->.
        destruct (IH p) as [Htree Hfired]. split; [|done].
        by destruct (latest path_join envs).
Qed.

(** ** A workspace without folders *)

(** X11.  When a workspace is open but lists no folder, reading
    [workspaceFolders[0].uri] fails: [readBookmarksFile] throws, and so do
    [refresh], the constructor of the provider, [getChildren] asked for the
    roots, and [createBookmarksFile]; none of them reports "no workspace
    folder". *)
Theorem no_folder_in_workspace marked path_join env p (h : Heap) w :
  workspaceFolders env = Some [] ->
  wb_env w = env ->
  readBookmarksFile path_join env = inl TypeError /\
  refresh marked path_join env p = inl TypeError /\
  newProvider marked path_join env h = inl TypeError /\
  getChildren marked path_join env None p = inl TypeError /\
  createBookmarksFile path_join w = inl TypeError.
Proof.
  intros Hfolders Hw.
  unfold newProvider, refresh, getChildren, createBookmarksFile,
    readBookmarksFile.
  by rewrite Hw, Hfolders.
Qed.

Lemma no_folder_in_workspace_witness :
  readBookmarksFile (fun d f => String.append d (String.append "/" f))
    (mkEnv (Some []) (fun _ => false) (fun _ => inl TypeError)) =
    inl TypeError.
Proof.
  apply (no_folder_in_workspace line_scanner
           (fun d f => String.append d (String.append "/" f))
           (mkEnv (Some []) (fun _ => false) (fun _ => inl TypeError))
           (mkProvider [] [] []) []
           (mkWorkbench (mkEnv (Some []) (fun _ => false) (fun _ => inl TypeError))
              (fun _ => None) [])).
  - reflexivity.
  - reflexivity.
Defined.

(** ** [createBookmarksFile] *)

Lemma readBookmarksFile_fs_write path_join env d ds data :
  workspaceFolders env = Some (d :: ds) ->
  readBookmarksFile path_join
    (fs_write (path_join d "BOOKMARKS.md") data env) = inr (Some data).
Proof.
  intros Hfolders. unfold readBookmarksFile, fs_write; simpl.
  rewrite Hfolders. simpl. by rewrite String.eqb_refl.
Qed.

(** X12.  With a folder open and a write that reports no error,
    [createBookmarksFile] writes the default text to [BOOKMARKS.md] of the
    first folder without looking at what is there, and says so in one
    information message.  From then on the file reads as the default text,
    whatever it held before, and the next [refresh] stores the tree of that
    text and fires an event; when the library calls heading "Default
    Bookmark" (1) and link "Good for Now" on it, that tree is one directory
    holding one link. *)
Theorem createBookmarksFile_then_refresh marked path_join w d ds :
  workspaceFolders (wb_env w) = Some (d :: ds) ->
  write_error w (path_join d "BOOKMARKS.md") = None ->
  exists w',
    createBookmarksFile path_join w = inr w' /\
    messages w' =
      messages w ++ [InformationMessage "BOOKMARKS.md created successfully!"] /\
    readBookmarksFile path_join (wb_env w') = inr (Some defaultContent) /\
    (forall p, exists roots ext ns,
       refresh marked path_join (wb_env w') p =
         inr (mkProvider (store p ++ ext) roots (fired p ++ [None])) /\
       tree_of marked defaultContent = Some ns /\
       forest (store p ++ ext) roots = Some ns) /\
    (marked defaultContent =
       [CallHeading "Default Bookmark" 1%Z;
        CallLink "https://www.example.com" None "Good for Now"] ->
     tree_of marked defaultContent =
       Some [Directory "Default Bookmark" 1%Z
               [Link "Good for Now" "https://www.example.com"]]).
Proof.
  intros Hfolders Hwrite. unfold createBookmarksFile.
  rewrite Hfolders. simpl. rewrite Hwrite.
  eexists. split; [done|]. simpl. split; [done|].
  pose proof (readBookmarksFile_fs_write path_join (wb_env w) d ds
                defaultContent Hfolders) as Hread.
  split; [done|]. split.
  - intros p.
    destruct (refresh_content marked path_join _ p defaultContent Hread)
      as (roots & ext & ns & Hrefresh & Htree & Hforest & _); [done|].
    by exists roots, ext, ns.
  - intros Hcalls. rewrite tree_of_build, Hcalls. reflexivity.
Qed.

Lemma createBookmarksFile_then_refresh_witness :
  exists w',
    createBookmarksFile (fun d f => String.append d (String.append "/" f))
      (mkWorkbench
         (mkEnv (Some ["/w"]) (fun _ => true) (fun _ => inr short_doc))
         (fun _ => None) []) = inr w' /\
    readBookmarksFile (fun d f => String.append d (String.append "/" f))
      (wb_env w') = inr (Some defaultContent) /\
    tree_of line_scanner defaultContent =
      Some [Directory "Default Bookmark" 1%Z
              [Link "Good for Now" "https://www.example.com"]].
Proof.
  destruct (createBookmarksFile_then_refresh line_scanner
              (fun d f => String.append d (String.append "/" f))
              (mkWorkbench
                 (mkEnv (Some ["/w"]) (fun _ => true) (fun _ => inr short_doc))
                 (fun _ => None) []) "/w" [])
    as (w' & Hrun & _ & Hread & _ & Htree).
  - reflexivity.
  - reflexivity.
  - exists w'. split; [done|]. split; [done|]. apply Htree. reflexivity.
Defined.



(** * Order among siblings *)

Lemma dirs_descending_snoc_irrel l ns t lv cs t' cs' :
  dirs_descending l (ns ++ [Directory t lv cs]) =
  dirs_descending l (ns ++ [Directory t' lv cs']).
Proof.
  revert l. induction ns as [|[t0 l0 c0|t0 l0] ns IH]; intros l; simpl;
    [done| |done].
  by rewrite IH.
Qed.

Lemma links_then_dirs_snoc_irrel ns t lv cs t' cs' :
  links_then_dirs (ns ++ [Directory t lv cs]) =
  links_then_dirs (ns ++ [Directory t' lv cs']).
Proof.
  induction ns as [|[t0 l0 c0|t0 l0] ns IH]; simpl; [done| |done].
  apply dirs_descending_snoc_irrel.
Qed.

Lemma dirs_descending_prefix l ns ms :
  dirs_descending l (ns ++ ms) = true -> dirs_descending l ns = true.
Proof.
  revert l. induction ns as [|[t0 l0 c0|t0 l0] ns IH]; intros l; simpl;
    [done| |done].
  intros [H1 H2]%andb_true_iff. apply andb_true_iff. split; [done|].
  by apply IH.
Qed.

Lemma links_then_dirs_prefix ns ms :
  links_then_dirs (ns ++ ms) = true -> links_then_dirs ns = true.
Proof.
  induction ns as [|[t0 l0 c0|t0 l0] ns IH]; simpl; [done| |done].
  apply dirs_descending_prefix.
Qed.

Lemma links_then_any ns m :
  forallb is_link ns = true -> links_then_dirs (ns ++ [m]) = true.
Proof.
  induction ns as [|[t0 l0 c0|t0 l0] ns IH]; simpl; [|done|done].
  intros _. by destruct m.
Qed.

Lemma dirs_descending_snoc l ns t l1 cs t' lv cs' :
  dirs_descending l (ns ++ [Directory t l1 cs]) = true ->
  (lv <= l1)%Z ->
  dirs_descending l ((ns ++ [Directory t l1 cs]) ++ [Directory t' lv cs']) = true.
Proof.
  revert l. induction ns as [|[t0 l0 c0|t0 l0] ns IH]; intros l; simpl;
    [|by intros [H1 H2]%andb_true_iff ?; rewrite H1, IH|done].
  intros H Hle. rewrite andb_true_r in H. rewrite H. simpl.
  rewrite andb_true_r. by apply Z.leb_le.
Qed.

Lemma links_then_dirs_snoc ns t l1 cs t' lv cs' :
  links_then_dirs (ns ++ [Directory t l1 cs]) = true ->
  (lv <= l1)%Z ->
  links_then_dirs ((ns ++ [Directory t l1 cs]) ++ [Directory t' lv cs']) = true.
Proof.
  induction ns as [|[t0 l0 c0|t0 l0] ns IH]; simpl; [| |done].
  - intros _ Hle. rewrite andb_true_r. by apply Z.leb_le.
  - apply dirs_descending_snoc.
Qed.

(** What follows a directory among its siblings is a directory, and not a
    deeper one. *)
Lemma dirs_descending_adjacent l pre t1 l1 c1 x post :
  dirs_descending l (pre ++ Directory t1 l1 c1 :: x :: post) = true ->
  exists t2 l2 c2, x = Directory t2 l2 c2 /\ (l2 <= l1)%Z.
Proof.
  revert l. induction pre as [|[t0 l0 c0|t0 l0] pre IH]; intros l; simpl;
    [| |done].
  - intros [_ H]%andb_true_iff. destruct x as [t2 l2 c2|]; [|done].
    apply andb_true_iff in H as [H _]. apply Z.leb_le in H.
    by exists t2, l2, c2.
  - intros [_ H]%andb_true_iff. by eapply IH.
Qed.

Lemma links_then_dirs_adjacent pre t1 l1 c1 x post :
  links_then_dirs (pre ++ Directory t1 l1 c1 :: x :: post) = true ->
  exists t2 l2 c2, x = Directory t2 l2 c2 /\ (l2 <= l1)%Z.
Proof.
  induction pre as [|[t0 l0 c0|t0 l0] pre IH]; simpl; [| |done].
  - destruct x as [t2 l2 c2|]; [|done].
    intros [H _]%andb_true_iff. apply Z.leb_le in H. by exists t2, l2, c2.
  - apply dirs_descending_adjacent.
Qed.

Lemma accepts_ordered ns lv : accepts ns lv = true -> links_then_dirs ns = true.
Proof. apply links_then_dirs_prefix. Qed.

Lemma accepts_snoc ns t lv cs :
  accepts ns lv = true -> links_then_dirs (ns ++ [Directory t lv cs]) = true.
Proof.
  unfold accepts.
  by rewrite (links_then_dirs_snoc_irrel _ t lv cs EmptyString []).
Qed.

Lemma accepts_after ns t l1 cs lv :
  accepts ns l1 = true -> (lv <= l1)%Z ->
  accepts (ns ++ [Directory t l1 cs]) lv = true.
Proof.
  intros Hns Hle. unfold accepts. apply links_then_dirs_snoc; [|done].
  by apply accepts_snoc.
Qed.

Lemma links_accept ns lv : forallb is_link ns = true -> accepts ns lv = true.
Proof. apply links_then_any. Qed.

(** One [pop], seen from the order among siblings. *)
Lemma zpop_ordered roots f fs :
  nodes_ordered (mkZipper roots (f :: fs)) ->
  links_then_dirs (fdone f) = true ->
  below_ok roots fs (flevel f) ->
  zclosing (zpop (mkZipper roots (f :: fs))) /\
  forall lv, (lv <= flevel f)%Z -> zloop lv (zpop (mkZipper roots (f :: fs))).
Proof.
  intros [Hroots Hframes] Hf Hbelow. simpl in *.
  apply Forall_cons in Hframes as [Hdone Hframes].
  assert (well_ordered (close f) = true) as Hclose.
  { simpl. rewrite Hf. simpl. by apply forallb_Forall. }
  unfold zpop, zattach, zclosing, zloop, nodes_ordered; simpl.
  destruct fs as [|g fs]; simpl in *.
  - assert (Forall (fun n => well_ordered n = true) (roots ++ [close f]))
      as Hroots' by (apply Forall_app; split; [done|by constructor]).
    split.
    + split; [done|]. by apply accepts_snoc.
    + intros lv Hle. split; [done|]. by apply accepts_after.
  - destruct Hbelow as [Hg Hbelow].
    apply Forall_cons in Hframes as [Hgdone Hframes]. simpl in *.
    assert (Forall (fun n => well_ordered n = true) (fdone g ++ [close f]))
      as Hdone' by (apply Forall_app; split; [done|by constructor]).
    split.
    + split; [split; [done|by constructor]|].
      split; [by apply accepts_snoc|done].
    + intros lv Hle. split; [split; [done|by constructor]|].
      split; [by apply accepts_after|done].
Qed.

Lemma zpop_while_zloop lv n :
  forall z, length (zopen z) <= n -> zloop lv z -> zloop lv (zpop_while lv z).
Proof.
  induction n as [|n IH]; intros [roots frames] Hn Hz;
    rewrite zpop_while_turn; simpl in *;
    destruct frames as [|f frames]; try done; try (simpl in Hn; lia).
  destruct (lv <=? flevel f)%Z eqn:E; [|done]. apply Z.leb_le in E.
  apply IH.
  - erewrite zpop_length; [|done]. simpl in Hn. lia.
  - destruct Hz as [Hnodes [Hf Hbelow]]. simpl in *.
    apply zpop_ordered; [done|by eapply accepts_ordered|done|done].
Qed.

Lemma zord_zloop lv z : zord z -> zloop lv z.
Proof.
  intros [Hnodes Htop]. split; [done|].
  destruct (zopen z) as [|f fs]; simpl.
  - by apply links_accept.
  - destruct Htop as [Hlinks Hbelow]. split; [by apply links_accept|done].
Qed.

Lemma forallb_snoc {A : Type} (p : A -> bool) l x :
  forallb p (l ++ [x]) = forallb p l && p x.
Proof.
  induction l as [|y l IH]; simpl; [by rewrite andb_true_r|].
  by rewrite IH, andb_assoc.
Qed.

Lemma zstep_zord z c : zord z -> zord (zstep z c).
Proof.
  intros Hz. destruct c as [text lv|href title text]; simpl.
  - destruct (zpop_while_zloop lv _ z (le_n _) (zord_zloop lv z Hz))
      as [[Hroots Hframes] Hbelow].
    unfold zheading, zord, nodes_ordered; simpl.
    split; [split; [done|by constructor]|]. by split.
  - destruct Hz as [[Hroots Hframes] Htop].
    unfold zlink, zattach, zord, nodes_ordered.
    destruct (zopen z) as [|f fs]; simpl in *.
    + split; [split; [|done]|].
      * apply Forall_app. split; [done|]. by constructor.
      * rewrite forallb_snoc, Htop. done.
    + apply Forall_cons in Hframes as [Hdone Hframes].
      destruct Htop as [Hlinks Hbelow].
      split; [split; [done|constructor; [|done]]|].
      * simpl. apply Forall_app. split; [done|]. by constructor.
      * split; [|done]. rewrite forallb_snoc, Hlinks. done.
Qed.

Lemma zrun_zord calls : forall z, zord z -> zord (zrun calls z).
Proof.
  induction calls as [|c calls IH]; intros z Hz; simpl; [done|].
  apply IH. by apply zstep_zord.
Qed.

Lemma zord_zclosing z : zord z -> zclosing z.
Proof.
  intros [Hnodes Htop]. split; [done|].
  destruct (zopen z) as [|f fs].
  - eapply accepts_ordered. by apply (links_accept _ 0%Z).
  - destruct Htop as [Hlinks Hbelow]. split; [|done].
    eapply accepts_ordered. by apply (links_accept _ 0%Z).
Qed.

Lemma iter_zpop_zclosing n : forall z, zclosing z -> zclosing (Nat.iter n zpop z).
Proof.
  induction n as [|n IH]; intros z Hz; simpl; [done|].
  specialize (IH z Hz). destruct (Nat.iter n zpop z) as [roots [|f fs]].
  - done.
  - destruct IH as [Hnodes [Hf Hbelow]]. simpl in *.
    by apply zpop_ordered.
Qed.

Lemma build_ordered calls :
  links_then_dirs (build calls) = true /\
  forallb well_ordered (build calls) = true.
Proof.
  unfold build, zclose_all.
  set (z := zrun calls (mkZipper [] [])).
  assert (zclosing z) as Hz.
  { apply zord_zclosing, zrun_zord. repeat split; constructor. }
  pose proof (iter_zpop_zclosing (length (zopen z)) z Hz) as [[Hroots _] Htop].
  rewrite (iter_zpop_closed _ z eq_refl) in Htop.
  split; [done|]. by apply forallb_Forall.
Qed.

Lemma well_ordered_within m n :
  within m n -> well_ordered n = true -> well_ordered m = true.
Proof.
  induction 1 as [|t lv cs c Hc _ IH]; [done|].
  intros Hn. apply IH. simpl in Hn. apply andb_true_iff in Hn as [_ Hn].
  apply forallb_Forall in Hn. rewrite Forall_forall in Hn. by apply Hn.
Qed.

(** X14.  Among the roots, and among the children of every directory of
    the returned tree, links come first and directories after them: what
    follows a directory is always another directory, and never a deeper
    one.  (A link written after a sub-heading goes under that sub-heading
    or a later one, never back to the parent.) *)
Theorem extractBookmarks_sibling_order marked text h0 :
  exists roots h1 ns,
    extractBookmarks marked text h0 = inr (roots, h1) /\
    forest h1 roots = Some ns /\
    links_then_dirs ns = true /\
    (forall root t lv cs,
       root ∈ ns -> within (Directory t lv cs) root ->
       links_then_dirs cs = true) /\
    (forall pre t1 l1 c1 x post,
       ns = pre ++ Directory t1 l1 c1 :: x :: post ->
       exists t2 l2 c2, x = Directory t2 l2 c2 /\ (l2 <= l1)%Z) /\
    (forall root t lv pre t1 l1 c1 x post,
       root ∈ ns ->
       within (Directory t lv (pre ++ Directory t1 l1 c1 :: x :: post)) root ->
       exists t2 l2 c2, x = Directory t2 l2 c2 /\ (l2 <= l1)%Z).
Proof.
  destruct (extractBookmarks_forest marked text h0)
    as (roots & h1 & Hrun & Hforest).
  destruct (build_ordered (marked text)) as [Htop Hall].
  exists roots, h1, (build (marked text)).
  split; [done|]. split; [done|]. split; [done|].
  assert (forall root t lv cs,
            root ∈ build (marked text) -> within (Directory t lv cs) root ->
            links_then_dirs cs = true) as Hinner.
  { intros root t lv cs Hroot Hin.
    apply forallb_Forall in Hall. rewrite Forall_forall in Hall.
    pose proof (well_ordered_within _ _ Hin (Hall root Hroot)) as Hdir.
    simpl in Hdir. by apply andb_true_iff in Hdir as [? _]. }
  split; [done|]. split.
  - intros pre t1 l1 c1 x post Hsplit. rewrite Hsplit in Htop.
    by eapply links_then_dirs_adjacent.
  - intros root t lv pre t1 l1 c1 x post Hroot Hin.
    eapply links_then_dirs_adjacent. by eapply Hinner.
Qed.

Lemma extractBookmarks_sibling_order_witness :
  exists t2 l2 c2,
    Directory "C" 1%Z [Link "Y" "http://y"] = Directory t2 l2 c2 /\
    (l2 <= 1)%Z.
Proof.
  destruct (extractBookmarks_sibling_order line_scanner sample_doc [])
    as (roots & h1 & ns & Hrun & Hforest & _ & _ & Hadj & _).
  vm_compute in Hrun. injection Hrun as <- <-.
  vm_compute in Hforest. injection Hforest as <-.
  apply (Hadj [] "A" 1%Z [Directory "B" 2%Z [Link "X" "http://x"]]
              (Directory "C" 1%Z [Link "Y" "http://y"]) []).
  reflexivity.
Defined.

(** * The builder computes the tree of sections *)

Definition stops (lv : Z) (es : list Entry) : Prop :=
  match es with
  | [] => True
  | e :: _ => deeper lv e = false
  end.

Definition good (n : Node) : Prop :=
  well_ordered n = true /\ level_monotonic n = true.

Lemma deeper_weaken lv l e :
  (lv < l)%Z -> deeper l e = true -> deeper lv e = true.
Proof.
  destruct e as [t l'|href text]; simpl; [|done].
  intros Hlt Hl. apply Z.ltb_lt in Hl. apply Z.ltb_lt. lia.
Qed.

Lemma preorder_deeper n :
  forall lv, node_ok lv n = true ->
  Forall (fun e => deeper lv e = true) (preorder n).
Proof.
  induction n as [t l|t l cs IH] using Node_ind; intros lv Hn; simpl.
  - by repeat constructor.
  - unfold node_ok in Hn. apply andb_true_iff in Hn as [Hlv Hcs].
    simpl in Hlv, Hcs. constructor; [done|].
    apply forallb_Forall in Hcs. apply Z.ltb_lt in Hlv.
    induction IH as [|c cs Hc _ IHcs]; simpl; [constructor|].
    apply Forall_cons in Hcs as [Hc' Hcs]. apply Forall_app. split.
    + eapply Forall_impl; [by apply Hc|]. simpl. intros e.
      by apply deeper_weaken.
    + by apply IHcs.
Qed.

Lemma span_section_app lv a rest :
  Forall (fun e => deeper lv e = true) a ->
  stops lv rest ->
  span_section lv (a ++ rest) = (a, rest).
Proof.
  intros Ha Hrest. induction Ha as [|e a He _ IH]; simpl.
  - destruct rest as [|e rest]; [done|]. simpl in *. by rewrite Hrest.
  - by rewrite He, IH.
Qed.

Lemma dirs_descending_stops lv ns :
  dirs_descending lv ns = true -> stops lv (preorder_all ns).
Proof.
  destruct ns as [|[t l cs|t l] ns]; simpl; [done| |done].
  intros [Hl _]%andb_true_iff. apply Z.leb_le in Hl. apply Z.ltb_ge. lia.
Qed.

Lemma dirs_descending_ordered lv ns :
  dirs_descending lv ns = true -> links_then_dirs ns = true.
Proof.
  destruct ns as [|[t l cs|t l] ns]; simpl; [done| |done].
  by intros [_ ?]%andb_true_iff.
Qed.

Lemma sections_list ns :
  Forall (fun n =>
            good n ->
            forall es,
              match n with
              | Directory _ lv _ => stops lv es
              | Link _ _ => True
              end ->
              sections (preorder n ++ es) = n :: sections es) ns ->
  links_then_dirs ns = true ->
  Forall good ns ->
  sections (preorder_all ns) = ns.
Proof.
  induction 1 as [|n ns Hn _ IH]; intros Hord Hgood.
  - by simp sections.
  - apply Forall_cons in Hgood as [Hgn Hgood].
    unfold preorder_all. simpl. fold (preorder_all ns).
    destruct n as [t lv cs|t l]; simpl in Hord.
    + rewrite Hn; [|done|by apply dirs_descending_stops].
      f_equal. apply IH; [|done]. by eapply dirs_descending_ordered.
    + rewrite Hn by done. f_equal. by apply IH.
Qed.

Lemma sections_node n :
  good n ->
  forall es,
    match n with
    | Directory _ lv _ => stops lv es
    | Link _ _ => True
    end ->
    sections (preorder n ++ es) = n :: sections es.
Proof.
  induction n as [t l|t lv cs IH] using Node_ind; intros [Hord Hmono] es Hes;
    simpl; simp sections; [done|].
  fold (preorder_all cs).
  simpl in Hord, Hmono. apply andb_true_iff in Hord as [Hcs Hall].
  apply forallb_Forall in Hall, Hmono.
  rewrite span_section_app; [|..|done].
  - simpl. f_equal. f_equal. apply sections_list; [done..|].
    apply Forall_forall. intros c Hc. rewrite Forall_forall in Hall, Hmono.
    split; [by apply Hall|].
    specialize (Hmono c Hc). by apply andb_true_iff in Hmono as [_ ?].
  - unfold preorder_all. clear IH Hcs Hall.
    induction Hmono as [|c cs Hc _ IHcs]; simpl; [constructor|].
    apply Forall_app. split; [|done]. by apply preorder_deeper.
Qed.

Lemma build_sections calls : build calls = sections (map entry_of calls).
Proof.
  rewrite <- build_preorder.
  destruct (build_ordered calls) as [Htop Hall].
  pose proof (build_monotonic calls) as Hmono.
  apply forallb_Forall in Hall, Hmono.
  symmetry. apply sections_list; [|done|].
  - apply Forall_forall. intros n _. apply sections_node.
  - apply Forall_forall. intros n Hn. rewrite Forall_forall in Hall, Hmono.
    split; [by apply Hall|by apply Hmono].
Qed.

(** X15.  The stack does what descent by sections would do: the returned
    tree is the tree in which every heading holds exactly the calls that
    follow it up to the next heading that is not deeper, with the links
    made before the first heading as roots. *)
Theorem extractBookmarks_sections marked text h0 :
  exists roots h1,
    extractBookmarks marked text h0 = inr (roots, h1) /\
    forest h1 roots = Some (sections (map entry_of (marked text))).
Proof.
  destruct (extractBookmarks_forest marked text h0)
    as (roots & h1 & Hrun & Hforest).
  exists roots, h1. split; [done|]. by rewrite Hforest, build_sections.
Qed.
